(** * koishi-plugin-about: the scraper pipeline of [src/index.ts]

    A shallow embedding of the plugin's single source file: the process
    runner [spawnOutput], the three scrapers, the aggregation performed by
    [apply] and the handler of the registered [about] command.

    Conventions of the embedding.
    - A JavaScript string is a [string] holding its UTF-8 bytes.
    - An [async] function is a computation in [Async]: the effects it
      performs, in order, and how its promise settles ([Fulfilled],
      [Rejected], or [Pending] when it never settles).
    - Everything the program obtains from its surroundings (child
      processes, the file system, module resolution, the working directory)
      is read from a [World]. *)

From Stdlib Require Import ZArith String Ascii List.
From stdpp Require Import base option list strings gmap.

Set Warnings "-register-all".

(** ** JavaScript values *)

(** The values that flow through the plugin: the contents of a parsed
    [package.json], strings, exit codes, and thrown [Error] objects.  The
    payload of a number is never inspected by the program apart from its
    truthiness; it is kept as an integer, which is what an exit code is. *)
Inductive jsval : Type :=
  | VUndefined
  | VNull
  | VBool (b : bool)
  | VNum (n : Z)
  | VStr (s : string)
  | VArr (items : list jsval)
  | VObj (fields : list (string * jsval))
  | VError (name message : string).

(** [if (x)]: the falsy values are [undefined], [null], [false], [0] and
    the empty string. *)
Definition truthy (x : jsval) : bool :=
  match x with
  | VUndefined | VNull => false
  | VBool b => b
  | VNum n => negb (n =? 0)%Z
  | VStr s => negb (String.eqb s "")
  | VArr _ | VObj _ | VError _ _ => true
  end.

(** An object literal or the target of [Object.assign], used as a map. *)
Abbreviation JsObject := (gmap string jsval).

(** [Object.assign(target, ...sources)]: every source is copied over the
    target in order, a later source overwriting the keys of the earlier
    ones; an [undefined] source is skipped. *)
Definition Object_assign (target : JsObject) (sources : list (option JsObject))
  : JsObject :=
  foldl (fun t s => match s with Some o => o ∪ t | None => t end) target sources.

(** ** String primitives *)

(** [x.slice(n)] for a start index [n] that is not negative. *)
Fixpoint slice (n : nat) (x : string) : string :=
  match n, x with
  | O, _ => x
  | S n', String _ x' => slice n' x'
  | S _, EmptyString => EmptyString
  end.

(** [c.toLowerCase()] on one character; the letters A to Z are mapped,
    every other byte is left as it is (the names the plugin handles are
    ASCII). *)
Definition toLowerCase_ascii (c : ascii) : ascii :=
  let n := nat_of_ascii c in
  if (65 <=? n)%nat && (n <=? 90)%nat then ascii_of_nat (n + 32) else c.

Definition bytes (l : list nat) : list ascii := List.map ascii_of_nat l.

(** The code points [String.prototype.trim] strips (WhiteSpace and
    LineTerminator of ECMAScript), as UTF-8 byte sequences. *)
Definition white_space : list (list ascii) :=
  [ bytes [9]; bytes [10]; bytes [11]; bytes [12]; bytes [13]; bytes [32];
    bytes [194; 160]; bytes [225; 154; 128];
    bytes [226; 128; 128]; bytes [226; 128; 129]; bytes [226; 128; 130];
    bytes [226; 128; 131]; bytes [226; 128; 132]; bytes [226; 128; 133];
    bytes [226; 128; 134]; bytes [226; 128; 135]; bytes [226; 128; 136];
    bytes [226; 128; 137]; bytes [226; 128; 138];
    bytes [226; 128; 168]; bytes [226; 128; 169]; bytes [226; 128; 175];
    bytes [226; 129; 159]; bytes [227; 128; 128]; bytes [239; 187; 191] ]%nat.

Fixpoint strip_prefix (p s : list ascii) : option (list ascii) :=
  match p, s with
  | [], _ => Some s
  | a :: p', b :: s' => if Ascii.eqb a b then strip_prefix p' s' else None
  | _ :: _, [] => None
  end.

Fixpoint strip_any (ws : list (list ascii)) (s : list ascii)
  : option (list ascii) :=
  match ws with
  | [] => None
  | p :: ws' =>
      match strip_prefix p s with
      | Some s' => Some s'
      | None => strip_any ws' s
      end
  end.

Fixpoint strip_all (fuel : nat) (ws : list (list ascii)) (s : list ascii)
  : list ascii :=
  match fuel with
  | O => s
  | S fuel' =>
      match strip_any ws s with
      | Some s' => strip_all fuel' ws s'
      | None => s
      end
  end.

Definition trimStart (s : list ascii) : list ascii :=
  strip_all (length s) white_space s.

Definition trimEnd (s : list ascii) : list ascii :=
  rev (strip_all (length s) (List.map (@rev ascii) white_space) (rev s)).

(** [s.trim()]. *)
Definition trim (s : string) : string :=
  string_of_list_ascii (trimEnd (trimStart (list_ascii_of_string s))).

(** ** Promises and effects *)

(** How a promise ends: with a value, with a reason, or never. *)
Inductive settle (A : Type) : Type :=
  | Fulfilled (a : A)
  | Rejected (e : jsval)
  | Pending.
Arguments Fulfilled {A} a.
Arguments Rejected {A} e.
Arguments Pending {A}.

(** The result of a synchronous call into the host: a value or a throw. *)
Inductive completion (A : Type) : Type :=
  | Normal (a : A)
  | Throw (e : jsval).
Arguments Normal {A} a.
Arguments Throw {A} e.

(** What the plugin does to the outside. *)
Inductive effect : Type :=
  | ESpawn (command : string) (args : list string) (options : JsObject)
  | EWarn (logger : string) (x : jsval)
  | EWarnRecord (logger : string) (r : JsObject)
  | EDefine (locale : string)
  | ECommand (name : string).

Definition is_spawn (e : effect) : bool :=
  match e with ESpawn _ _ _ => true | _ => false end.

(** An asynchronous computation: its effects and its settlement. *)
Definition Async (A : Type) : Type := (list effect * settle A)%type.

Definition trace {A} (m : Async A) : list effect := m.1.
Definition outcome {A} (m : Async A) : settle A := m.2.

Definition throw {A} (e : jsval) : Async A := ([], Rejected e).
Definition emit (e : effect) : Async unit := ([e], Fulfilled tt).

#[export] Instance async_ret : MRet Async := fun A a => ([], Fulfilled a).

(** Sequencing; [await] of a promise that rejects or never settles ends
    the rest of the function. *)
#[export] Instance async_bind : MBind Async := fun A B k m =>
  match m.2 with
  | Fulfilled a => (m.1 ++ (k a).1, (k a).2)
  | Rejected e => (m.1, Rejected e)
  | Pending => (m.1, Pending)
  end.

(** [try { m } catch (e) { h e }]. *)
Definition try_catch {A} (m : Async A) (h : jsval -> Async A) : Async A :=
  match m.2 with
  | Rejected e => (m.1 ++ (h e).1, (h e).2)
  | _ => m
  end.

(** A synchronous host call inside an asynchronous function: a throw
    becomes a rejection. *)
Definition sync {A} (c : completion A) : Async A :=
  match c with
  | Normal a => mret a
  | Throw e => throw e
  end.

(** ** The world *)

(** Events of a child process in the order the event loop delivers them:
    a chunk on its standard output, or ['close'] with the exit code
    ([None] is the [null] code of a process ended by a signal). *)
Inductive child_event : Type :=
  | Data (x : string)
  | Close (code : option Z).

(** The object returned by [child_process.spawn]: whether [child.stdout]
    is there, and the events that will reach the two listeners the program
    attaches.  The program attaches no ['error'] listener; that event is
    outside the model. *)
Record ChildProcess : Type := {
  has_stdout : bool;
  events : list child_event
}.

(** What one scraper invocation finds around it: [child_process.spawn],
    [process.cwd()], [path.join], [require] and [require.resolve].  A call
    that throws is a [Throw]. *)
Record World : Type := {
  spawn : string -> list string -> JsObject -> completion ChildProcess;
  cwd : completion string;
  join : string -> string -> string;
  require : string -> completion jsval;
  require_resolve : string -> completion string
}.

Definition code_value (code : option Z) : jsval :=
  match code with
  | Some n => VNum n
  | None => VNull
  end.

(** ** [spawnOutput] *)

(** The two listeners of [spawnOutput] run over the events of the child:
    ['data'] appends the chunk to [stdout]; the first ['close'] settles the
    promise, [if (x) reject(x) else resolve(stdout)].  A child that never
    closes leaves the promise pending. *)
Fixpoint on_events (evs : list child_event) (stdout : string) : settle string :=
  match evs with
  | [] => Pending
  | Data x :: evs' => on_events evs' (stdout +:+ x)
  | Close x :: _ =>
      if truthy (code_value x) then Rejected (code_value x) else Fulfilled stdout
  end.

(** The literal [{ stdio: 'pipe', shell: true }]. *)
Definition spawn_defaults : JsObject :=
  <["shell" := VBool true]> (<["stdio" := VStr "pipe"]> ∅).

Definition spawnOutput (w : World) (command : string)
    (args : option (list string)) (options : option JsObject) : Async string :=
  let parsedArgs := default [] args in
  let parsedOptions := Object_assign ∅ [Some spawn_defaults; options] in
  emit (ESpawn command parsedArgs parsedOptions) ;;
  child ← sync (spawn w command parsedArgs parsedOptions) ;
  let stdout := "" in
  if negb (has_stdout child) then
    throw (VError "Error"
             ("cannot get stdout of " +:+ command +:+ " " +:+
              String.concat " " parsedArgs))
  else ([], on_events (events child) stdout).

(** ** Locale and scrape context *)

Record AboutMessages : Type := { unknown : string }.
Record AboutLocale : Type := { template : string; messsages : AboutMessages }.
Record Commands : Type := { about : AboutLocale }.
Record LocaleDict : Type := { commands : Commands }.

Definition localeDict : LocaleDict :=
  {| commands := {| about := {|
       template := trim "
{project.name} - {project.description}
版本：{project.version}
框架：Koishi v{koishiVersion}
";
       messsages := {| unknown := "（未知）" |} |} |} |}.

(** The host's application context and a logger obtained from it. *)
Inductive Context : Type := HostContext.
Record Logger : Type := { logger_name : string }.

Record ScrapeContext : Type := {
  ctx : Context;
  sctx_localeDict : LocaleDict;
  l : Logger
}.

(** [l.warn(x)]. *)
Definition warn (l : Logger) (x : jsval) : Async unit :=
  emit (EWarn (logger_name l) x).

(** ** Scrapers *)

(** [try { x = await m } catch (e) { return h e }], then [k x]: the
    handler leaves the function, the rest of the body runs only after the
    guarded call went through. *)
Definition try_or_return {A B} (m : Async A) (h : jsval -> Async B)
    (k : A -> Async B) : Async B :=
  match m.2 with
  | Fulfilled a => (m.1 ++ (k a).1, (k a).2)
  | Rejected e => (m.1 ++ (h e).1, (h e).2)
  | Pending => (m.1, Pending)
  end.

Definition unknown_marker (d : LocaleDict) : jsval :=
  VStr (unknown (messsages (about (commands d)))).

Definition scrapeGitVersion (sctx : ScrapeContext) (w : World) : Async jsval :=
  let version := "" in
  try_or_return
    (spawnOutput w "git" (Some ["describe"; "--tags"; "--dirty"]) None)
    (fun e =>
       warn (l sctx) (VStr "failed to get version:") ;;
       warn (l sctx) e ;;
       mret (unknown_marker (sctx_localeDict sctx)))
    (fun out =>
       let version := version +:+ trim out in
       try_or_return
         (spawnOutput w "git" (Some ["rev-list"; "--count"; "HEAD"]) None)
         (fun e =>
            warn (l sctx) (VStr "failed to get build number") ;;
            warn (l sctx) e ;;
            mret (unknown_marker (sctx_localeDict sctx)))
         (fun out2 =>
            let version := version +:+ " (build " +:+ trim out2 +:+ ")" in
            mret (VStr version))).

Definition scrapeProject (sctx : ScrapeContext) (w : World) : Async jsval :=
  try_catch
    (dir ← sync (cwd w) ;
     project ← sync (require w (join w dir "package.json")) ;
     mret project)
    (fun e =>
       warn (l sctx) (VStr "failed to get project info") ;;
       warn (l sctx) e ;;
       mret (VObj [])).

(** [const { version: k } = v]: destructuring [undefined] or [null]
    throws; a property that is not there reads as [undefined]. *)
Definition destructure (prop : string) (v : jsval) : completion jsval :=
  match v with
  | VUndefined | VNull =>
      Throw (VError "TypeError" ("Cannot destructure property '" +:+ prop +:+ "'"))
  | VObj fields =>
      match list_find (fun kv => kv.1 = prop) fields with
      | Some (_, (_, x)) => Normal x
      | None => Normal VUndefined
      end
  | VError name message =>
      if String.eqb prop "name" then Normal (VStr name)
      else if String.eqb prop "message" then Normal (VStr message)
      else Normal VUndefined
  | _ => Normal VUndefined
  end.

Definition scrapeKoishiVersion (sctx : ScrapeContext) (w : World) : Async jsval :=
  try_catch
    (path ← sync (require_resolve w "koishi/package.json") ;
     pkg ← sync (require w path) ;
     koishiVersion ← sync (destructure "version" pkg) ;
     mret koishiVersion)
    (fun e =>
       warn (l sctx) (VStr "failed to get koishi version") ;;
       warn (l sctx) e ;;
       mret (unknown_marker (sctx_localeDict sctx))).

(** ** The scraper table *)

Definition Scraper : Type := ScrapeContext -> World -> Async jsval.

Definition scrapers : list (string * Scraper) :=
  [ ("scrapeProject", scrapeProject);
    ("scrapeGitVersion", scrapeGitVersion);
    ("scrapeKoishiVersion", scrapeKoishiVersion) ].

(** [scrapers[name]]; no inherited property of an object literal has a
    name that starts with "scrape", which is all [apply] asks for. *)
Definition scrapers_get (name : string) : option Scraper :=
  snd <$> (snd <$> list_find (fun kv => kv.1 = name) scrapers).

Definition removeScrapePrefix (x : string) : string := slice 6 x.

Definition scraperList : list string :=
  removeScrapePrefix <$> (fst <$> scrapers).

Record Config : Type := { config_scrapers : list string }.

(** The schema: an array over the union of [scraperList], which is also
    the default. *)
Definition valid_config (config : Config) : Prop :=
  Forall (fun x => x ∈ scraperList) (config_scrapers config).

Definition default_config : Config := {| config_scrapers := scraperList |}.

(** ** [Promise.all] *)

(** [Promise.all(ps)] keeps one slot per input promise.  The promises
    settle in the order [sched] (indices into [ps]); a fulfilment stores
    its value in the slot of its own index, and once every slot is filled
    the result is the slots in input order.  The first rejection rejects
    the whole.  An index whose promise never settles does nothing. *)
Fixpoint all_loop {A} (ps : list (settle A)) (sched : list nat)
    (values : list (option A)) : settle (list A) :=
  match mapM id values with
  | Some vs => Fulfilled vs
  | None =>
      match sched with
      | [] => Pending
      | i :: sched' =>
          match ps !! i with
          | Some (Fulfilled v) => all_loop ps sched' (<[i := Some v]> values)
          | Some (Rejected e) => Rejected e
          | _ => all_loop ps sched' values
          end
      end
  end.

Definition Promise_all {A} (ps : list (settle A)) (sched : list nat)
  : settle (list A) :=
  all_loop ps sched (replicate (length ps) None).

(** ** [apply] *)

(** [x[0].toLowerCase() + x.slice(1)]; [x[0]] of the empty string is
    [undefined], whose method call throws. *)
Definition derive_key (x : string) : completion string :=
  match x with
  | EmptyString =>
      Throw (VError "TypeError" "Cannot read properties of undefined")
  | String c _ => Normal (String (toLowerCase_ascii c) EmptyString +:+ slice 1 x)
  end.

(** [scrapers[('scrape' + x)](sctx)]; calling a missing entry throws. *)
Definition call_scraper (x : string) (sctx : ScrapeContext) (w : World)
  : Async jsval :=
  match scrapers_get ("scrape" +:+ x) with
  | Some f => f sctx w
  | None => throw (VError "TypeError" "scrapers[x] is not a function")
  end.

(** The callback given to [config.scrapers.map]: one invocation per
    configured name, each in the world its own child processes and file
    reads come from. *)
Definition scrape_one (sctx : ScrapeContext) (w : World) (x : string)
  : Async JsObject :=
  key ← sync (derive_key x) ;
  v ← call_scraper x sctx w ;
  mret {[ key := v ]}.

(** [Object.assign({}, ...(await Promise.all(config.scrapers.map(...))))].
    [W i] is the world of the invocation at position [i]; [sched] is the
    order in which the invocations settle.  The trace lists the effects of
    each invocation together, in input order. *)
Definition aggregate (sctx : ScrapeContext) (W : nat -> World)
    (sched : list nat) (config : Config) : Async JsObject :=
  let promises := imap (fun i x => scrape_one sctx (W i) x) (config_scrapers config) in
  objs ← (concat (fst <$> promises), Promise_all (snd <$> promises) sched) ;
  mret (Object_assign ∅ (Some <$> objs)).

(** The part of a session the handler uses: [session.text(path, params)],
    the host's rendering of a localized template. *)
Record Session : Type := { text : string -> JsObject -> string }.
Record Argv : Type := { session : Session }.

(** A command action of the host: it may read the world and perform
    effects before it answers. *)
Definition Action : Type := World -> Argv -> list effect * string.

(** [({ session }) => session.text('commands.about.template', result)]. *)
Definition about_action (result : JsObject) : Action :=
  fun _ argv => ([], text (session argv) "commands.about.template" result).

(** What [apply] leaves behind in the host: the command and its action. *)
Record Registration : Type := { command : string; action : Action }.

Definition apply (c : Context) (W : nat -> World) (sched : list nat)
    (config : Config) : Async Registration :=
  let l := {| logger_name := "about" |} in
  emit (EDefine "zh-CN") ;;
  let sctx := {| ctx := c; sctx_localeDict := localeDict; l := l |} in
  result ← aggregate sctx W sched config ;
  emit (EWarnRecord (logger_name l) result) ;;
  emit (ECommand "about") ;;
  mret {| command := "about"; action := about_action result |}.

(** ** Vocabulary of the statements *)

(** The exit code of the first ['close'] event, if the child closes. *)
Fixpoint first_close (evs : list child_event) : option (option Z) :=
  match evs with
  | [] => None
  | Data _ :: evs' => first_close evs'
  | Close code :: _ => Some code
  end.

(** The chunks that arrive before the first ['close'], in arrival order. *)
Fixpoint output_until_close (evs : list child_event) : string :=
  match evs with
  | [] => ""
  | Data x :: evs' => x +:+ output_until_close evs'
  | Close _ :: _ => ""
  end.

(** Every child process the world hands out closes at some point. *)
Definition closes (child : ChildProcess) : Prop :=
  is_Some (first_close (events child)).

Definition world_closes (w : World) : Prop :=
  forall command args options child,
    spawn w command args options = Normal child -> closes child.

(** Every position of the input settles at some point of the schedule. *)
Definition complete_schedule (sched : list nat) (n : nat) : Prop :=
  forall i, i < n -> i ∈ sched.

(** The options [spawnOutput] passes to [spawn]. *)
Definition parsed_options (options : option JsObject) : JsObject :=
  Object_assign ∅ [Some spawn_defaults; options].

(** The error thrown when [child.stdout] is missing. *)
Definition stdout_error (command : string) (args : list string) : jsval :=
  VError "Error"
    ("cannot get stdout of " +:+ command +:+ " " +:+ String.concat " " args).

(** The descriptor reads of the two file-based scrapers throw. *)
Definition project_read_fails (w : World) : Prop :=
  match cwd w with
  | Throw _ => True
  | Normal dir =>
      match require w (join w dir "package.json") with
      | Throw _ => True
      | Normal _ => False
      end
  end.

Definition koishi_read_fails (w : World) : Prop :=
  match require_resolve w "koishi/package.json" with
  | Throw _ => True
  | Normal path =>
      match require w path with
      | Throw _ => True
      | Normal _ => False
      end
  end.

(** The two [git] calls of [scrapeGitVersion]. *)
Definition git_describe (w : World) : Async string :=
  spawnOutput w "git" (Some ["describe"; "--tags"; "--dirty"]) None.

Definition git_rev_list (w : World) : Async string :=
  spawnOutput w "git" (Some ["rev-list"; "--count"; "HEAD"]) None.

(** The reading of the process runner's contract in which only a zero
    exit code counts as success: the promise fulfils, with the output
    gathered so far, exactly when the child closes with code [0]. *)
Definition resolves_exactly_on_zero (w : World) (command : string)
    (args : option (list string)) (options : option JsObject) : Prop :=
  forall child,
    spawn w command (default [] args) (parsed_options options) = Normal child ->
    has_stdout child = true ->
    forall out,
      outcome (spawnOutput w command args options) = Fulfilled out <->
      first_close (events child) = Some (Some 0%Z) /\
      out = output_until_close (events child).

(** ** Sample worlds *)

Definition child_with (evs : list child_event) : ChildProcess :=
  {| has_stdout := true; events := evs |}.

Definition child_without_stdout : ChildProcess :=
  {| has_stdout := false; events := [Close (Some 0%Z)] |}.

(** A world with one answer for [git describe], one for every other
    command, one for the project descriptor and one for the host's. *)
Definition sample_world (describe rev_list : completion ChildProcess)
    (project koishi : completion jsval) : World :=
  {| spawn := fun _ args _ =>
       if decide (args = ["describe"; "--tags"; "--dirty"]) then describe
       else rev_list;
     cwd := Normal "/app";
     join := fun a b => a +:+ "/" +:+ b;
     require := fun path =>
       if decide (path = "/app/package.json") then project else koishi;
     require_resolve := fun _ => Normal "/app/node_modules/koishi/package.json" |}.

Definition not_found : jsval := VError "Error" "Cannot find module".

Definition sample_project : jsval :=
  VObj [("name", VStr "about"); ("description", VStr "demo")].

Definition sample_koishi : jsval :=
  VObj [("name", VStr "koishi"); ("version", VStr "4.17.0")].

(** A tagged repository with one commit since the tag. *)
Definition world_tagged : World :=
  sample_world
    (Normal (child_with [Data "v1.2.0-1-g"; Data "0a1b2c3
"; Close (Some 0%Z)]))
    (Normal (child_with [Data "1
"; Close (Some 0%Z)]))
    (Normal sample_project) (Normal sample_koishi).

(** [git describe] exits with 128 (no tags, or not a repository). *)
Definition world_no_tags : World :=
  sample_world
    (Normal (child_with [Close (Some 128%Z)]))
    (Normal (child_with [Data "1
"; Close (Some 0%Z)]))
    (Normal sample_project) (Normal sample_koishi).

(** [git describe] goes through, [git rev-list] exits with 129. *)
Definition world_count_fails : World :=
  sample_world
    (Normal (child_with [Data "v1.2.0
"; Close (Some 0%Z)]))
    (Normal (child_with [Close (Some 129%Z)]))
    (Normal sample_project) (Normal sample_koishi).

(** Every [git] process is ended by a signal after its first chunk. *)
Definition world_killed : World :=
  sample_world
    (Normal (child_with [Data "v1.2.0"; Close None]))
    (Normal (child_with [Data "7"; Close None]))
    (Normal sample_project) (Normal sample_koishi).

(** No descriptor can be read. *)
Definition world_no_files : World :=
  sample_world
    (Normal (child_with [Data "v1.2.0
"; Close (Some 0%Z)]))
    (Normal (child_with [Data "1
"; Close (Some 0%Z)]))
    (Throw not_found) (Throw not_found).

(** The standard output of the children is not a pipe. *)
Definition world_no_stdout : World :=
  sample_world (Normal child_without_stdout) (Normal child_without_stdout)
    (Normal sample_project) (Normal sample_koishi).

Definition sample_sctx : ScrapeContext :=
  {| ctx := HostContext; sctx_localeDict := localeDict;
     l := {| logger_name := "about" |} |}.

(** ** Invariants of the [Promise.all] loop *)

(** A filled slot holds the value of the promise at its index. *)
Definition slots_agree {A} (ps : list (settle A)) (values : list (option A))
  : Prop :=
  forall i v, values !! i = Some (Some v) -> ps !! i = Some (Fulfilled v).

(** Every slot is either filled with the value of its promise or still
    to be filled by a later step of the schedule. *)
Definition slots_pending {A} (vs : list A) (sched : list nat)
    (values : list (option A)) : Prop :=
  forall i v, vs !! i = Some v ->
    values !! i = Some (Some v) \/ (values !! i = Some None /\ i ∈ sched).

(** ** The claim about duplicates, as the specification words it *)

(** The key [apply] files the value of [x] under. *)
Definition key_name (x : string) : string :=
  match derive_key x with
  | Normal key => key
  | Throw _ => x
  end.

(** Among the positions of the input that hold the name [x], the one whose
    invocation settles last. *)
Definition last_settled (sched : list nat) (names : list string) (x : string)
  : option nat :=
  last (filter (fun i => names !! i = Some x) sched).

(** "The winning value is determined by the completion order": the value
    filed under the key of [x] is the one of the invocation of [x] that
    settles last. *)
Definition completion_order_wins (sctx : ScrapeContext) (W : nat -> World)
    (sched : list nat) (config : Config) : Prop :=
  forall r i x v,
    outcome (aggregate sctx W sched config) = Fulfilled r ->
    last_settled sched (config_scrapers config) x = Some i ->
    outcome (call_scraper x sctx (W i)) = Fulfilled v ->
    r !! key_name x = Some v.

(** ** Sample configurations *)

(** Every invocation sees the tagged repository. *)
Definition worlds_tagged (i : nat) : World := world_tagged.

(** The same name twice.  The [git] processes of the second invocation
    are ended by a signal; those of the first run to their end. *)
Definition duplicated_config : Config :=
  {| config_scrapers := ["GitVersion"; "GitVersion"] |}.

Definition duplicated_worlds (i : nat) : World :=
  match i with
  | O => world_tagged
  | S _ => world_killed
  end.

(** The record scraped from the tagged repository. *)
Definition tagged_record : JsObject :=
  <["koishiVersion" := VStr "4.17.0"]>
    (<["gitVersion" := VStr "v1.2.0-1-g0a1b2c3 (build 1)"]>
       (<["project" := sample_project]> ∅)).

Definition empty_config : Config := {| config_scrapers := [] |}.

(** The context [apply] hands to the scrapers. *)
Definition apply_sctx (c : Context) : ScrapeContext :=
  {| ctx := c; sctx_localeDict := localeDict;
     l := {| logger_name := "about" |} |}.


(** ** Vocabulary of the further properties *)

(** The processes a trace starts, and the commands it registers. *)
Definition spawns (t : list effect) : list effect := List.filter is_spawn t.

Definition is_command (e : effect) : bool :=
  match e with ECommand _ => true | _ => false end.

Definition registrations (t : list effect) : list effect :=
  List.filter is_command t.

(** The two [spawn] effects of [scrapeGitVersion]. *)
Definition spawn_describe : effect :=
  ESpawn "git" ["describe"; "--tags"; "--dirty"] (parsed_options None).

Definition spawn_rev_list : effect :=
  ESpawn "git" ["rev-list"; "--count"; "HEAD"] (parsed_options None).

(** [try { ... } catch (e)] of the file-based scrapers: what the guarded
    reads produce. *)
Definition load_project (w : World) : completion jsval :=
  match cwd w with
  | Throw e => Throw e
  | Normal dir => require w (join w dir "package.json")
  end.

Definition load_koishi (w : World) : completion jsval :=
  match require_resolve w "koishi/package.json" with
  | Throw e => Throw e
  | Normal path => require w path
  end.

(** ** Further sample worlds *)

(** [git describe] writes a chunk and never closes. *)
Definition world_hung : World :=
  sample_world
    (Normal (child_with [Data "v1.2.0"]))
    (Normal (child_with [Data "1
"; Close (Some 0%Z)]))
    (Normal sample_project) (Normal sample_koishi).

(** The host's descriptor has no [version] field. *)
Definition world_no_version : World :=
  sample_world
    (Normal (child_with [Data "v1.2.0
"; Close (Some 0%Z)]))
    (Normal (child_with [Data "1
"; Close (Some 0%Z)]))
    (Normal sample_project) (Normal (VObj [("name", VStr "koishi")])).

(** [spawn] itself throws. *)
Definition world_spawn_throws : World :=
  sample_world (Throw not_found) (Throw not_found)
    (Normal sample_project) (Normal sample_koishi).

Definition worlds_hung (i : nat) : World := world_hung.

Definition files_only_config : Config :=
  {| config_scrapers := ["KoishiVersion"; "Project"] |}.

Definition git_only_config : Config :=
  {| config_scrapers := ["GitVersion"] |}.

(** A name the table does not have. *)
Definition unregistered_config : Config :=
  {| config_scrapers := ["Project"; "Version"] |}.

(** The two kinds of effect a scraper has. *)
Definition is_warn (e : effect) : bool :=
  match e with EWarn _ _ => true | _ => false end.

Definition scraper_effect (e : effect) : bool := is_spawn e || is_warn e.

(** The effects of the invocations of an aggregation, position by
    position. *)
Definition invocation_traces (sctx : ScrapeContext) (W : nat -> World)
    (config : Config) : list (list effect) :=
  imap (fun i x => trace (scrape_one sctx (W i) x)) (config_scrapers config).

(** * Properties *)

(** ** The embedding on concrete inputs *)

Example scraperList_value :
  scraperList = ["Project"; "GitVersion"; "KoishiVersion"].
Proof. reflexivity. Qed.

Example trim_describe : trim "  v1.2.0-3-gabc
" = "v1.2.0-3-gabc".
Proof. reflexivity. Qed.

Example trim_keeps_inner_space : trim "  a b  " = "a b".
Proof. reflexivity. Qed.

Example template_value :
  template (about (commands localeDict)) =
  "{project.name} - {project.description}
版本：{project.version}
框架：Koishi v{koishiVersion}".
Proof. reflexivity. Qed.

Example spawnOutput_exit_128 :
  outcome (spawnOutput world_no_tags "git"
             (Some ["describe"; "--tags"; "--dirty"]) None) =
  Rejected (VNum 128).
Proof. reflexivity. Qed.

Example scrapeGitVersion_no_tags :
  scrapeGitVersion sample_sctx world_no_tags =
  ([ESpawn "git" ["describe"; "--tags"; "--dirty"] spawn_defaults;
    EWarn "about" (VStr "failed to get version:");
    EWarn "about" (VNum 128)],
   Fulfilled (VStr "（未知）")).
Proof. vm_compute. reflexivity. Qed.

Example scrapeKoishiVersion_tagged :
  outcome (scrapeKoishiVersion sample_sctx world_tagged) =
  Fulfilled (VStr "4.17.0").
Proof. reflexivity. Qed.

Example aggregate_tagged :
  outcome (aggregate sample_sctx worlds_tagged [2; 0; 1] default_config) =
  Fulfilled tagged_record.
Proof. vm_compute. reflexivity. Qed.

Example missing_name_rejects :
  outcome (aggregate sample_sctx worlds_tagged [0]
             {| config_scrapers := ["Version"] |}) =
  Rejected (VError "TypeError" "scrapers[x] is not a function").
Proof. reflexivity. Qed.

(** ** The [Async] combinators *)

Lemma outcome_bind {A B} (m : Async A) (k : A -> Async B) :
  outcome (m ≫= k) =
  match outcome m with
  | Fulfilled a => outcome (k a)
  | Rejected e => Rejected e
  | Pending => Pending
  end.
Proof. by destruct m as [t [a|e|]]. Qed.

Lemma trace_bind {A B} (m : Async A) (k : A -> Async B) :
  trace (m ≫= k) =
  match outcome m with
  | Fulfilled a => trace m ++ trace (k a)
  | _ => trace m
  end.
Proof. by destruct m as [t [a|e|]]. Qed.

Lemma outcome_try_catch {A} (m : Async A) (h : jsval -> Async A) :
  outcome (try_catch m h) =
  match outcome m with
  | Rejected e => outcome (h e)
  | o => o
  end.
Proof. by destruct m as [t [a|e|]]. Qed.

Lemma outcome_try_or_return {A B} (m : Async A) h (k : A -> Async B) :
  outcome (try_or_return m h k) =
  match outcome m with
  | Fulfilled a => outcome (k a)
  | Rejected e => outcome (h e)
  | Pending => Pending
  end.
Proof. by destruct m as [t [a|e|]]. Qed.

Lemma outcome_sync {A} (c : completion A) :
  outcome (sync c) =
  match c with Normal a => Fulfilled a | Throw e => Rejected e end.
Proof. by destruct c. Qed.

Lemma outcome_warn l x : outcome (warn l x) = Fulfilled tt.
Proof. done. Qed.

(** A handler that logs twice and returns [v] fulfils with [v]. *)
Lemma outcome_recover l (x y v : jsval) :
  outcome (warn l x ;; warn l y ;; mret v) = Fulfilled v.
Proof. done. Qed.

(** ** [spawnOutput] *)

Lemma append_cons (ch : ascii) (a b : string) :
  String ch a +:+ b = String ch (a +:+ b).
Proof. done. Qed.

Lemma append_assoc (a b c : string) : (a +:+ b) +:+ c = a +:+ (b +:+ c).
Proof.
  induction a as [|ch a IH]; [done|]. by rewrite !append_cons, IH.
Qed.

Lemma append_empty_r (a : string) : a +:+ "" = a.
Proof.
  induction a as [|ch a IH]; [done|]. by rewrite append_cons, IH.
Qed.

Lemma on_events_spec (evs : list child_event) (acc : string) :
  on_events evs acc =
  match first_close evs with
  | None => Pending
  | Some code =>
      if truthy (code_value code) then Rejected (code_value code)
      else Fulfilled (acc +:+ output_until_close evs)
  end.
Proof.
  revert acc.
  induction evs as [|[x|code] evs IH]; intros acc;
    cbn [on_events first_close output_until_close].
  - done.
  - rewrite IH. destruct (first_close evs) as [code|]; [|done].
    by rewrite append_assoc.
  - by rewrite append_empty_r.
Qed.

Lemma spawnOutput_outcome w command args options :
  outcome (spawnOutput w command args options) =
  match spawn w command (default [] args) (parsed_options options) with
  | Throw e => Rejected e
  | Normal child =>
      if has_stdout child then on_events (events child) ""
      else Rejected (stdout_error command (default [] args))
  end.
Proof.
  unfold spawnOutput. fold (parsed_options options).
  rewrite outcome_bind. change (outcome (emit ?e)) with (Fulfilled tt).
  rewrite outcome_bind, outcome_sync.
  destruct (spawn w command (default [] args) (parsed_options options))
    as [child|e]; [|done].
  by destruct (has_stdout child).
Qed.

(** The settlement of [spawnOutput] on a child whose standard output is
    there, read off the first ['close'] event. *)
Lemma spawnOutput_on_child w command args options child :
  spawn w command (default [] args) (parsed_options options) = Normal child ->
  has_stdout child = true ->
  outcome (spawnOutput w command args options) =
  match first_close (events child) with
  | None => Pending
  | Some code =>
      if truthy (code_value code) then Rejected (code_value code)
      else Fulfilled (output_until_close (events child))
  end.
Proof.
  intros Hspawn Hout.
  rewrite spawnOutput_outcome, Hspawn, Hout, on_events_spec.
  by destruct (first_close (events child)).
Qed.

Lemma truthy_code (code : option Z) :
  truthy (code_value code) = true <-> exists n, code = Some n /\ n <> 0%Z.
Proof.
  destruct code as [n|]; simpl.
  - rewrite negb_true_iff, Z.eqb_neq.
    split; [by eauto | by intros (m & [= ->] & Hm)].
  - split; [done | by intros (m & [=] & _)].
Qed.

Lemma falsy_code (code : option Z) :
  truthy (code_value code) = false <-> code = Some 0%Z \/ code = None.
Proof.
  destruct code as [n|]; simpl.
  - rewrite negb_false_iff, Z.eqb_eq.
    split; [intros ->; by left | by intros [[= ->]|[=]]].
  - split; [by right | done].
Qed.

Lemma first_close_chunks (chunks : list string) code rest :
  first_close ((Data <$> chunks) ++ Close code :: rest) = Some code.
Proof. induction chunks as [|x chunks IH]; [done | exact IH]. Qed.

Lemma output_until_close_chunks (chunks : list string) code rest :
  output_until_close ((Data <$> chunks) ++ Close code :: rest) =
  foldr String.append "" chunks.
Proof.
  induction chunks as [|x chunks IH]; [done|].
  cbn [fmap list_fmap app output_until_close foldr]. by rewrite <- IH.
Qed.

(** C3, as worded, fails: a child ended by a signal closes with the
    [null] code, which is not a success indicator, and [spawnOutput] still
    fulfils with the output gathered so far. *)
Lemma spawnOutput_resolves_on_signal :
  ~ resolves_exactly_on_zero world_killed "git"
      (Some ["describe"; "--tags"; "--dirty"]) None.
Proof.
  intros Hclaim.
  destruct (Hclaim (child_with [Data "v1.2.0"; Close None]) eq_refl eq_refl
              "v1.2.0") as [Hzero _].
  by destruct (Hzero eq_refl).
Qed.

(** C3, amended: [spawnOutput] fulfils with the whole output gathered
    before the close exactly when the child closes with code [0] or with
    the [null] code of a signal; it rejects with the exit code exactly when
    the child closes with a code that is not zero; and it rejects with the
    "cannot get stdout" error when [child.stdout] is missing. *)
Theorem spawnOutput_settlement w command args options child :
  spawn w command (default [] args) (parsed_options options) = Normal child ->
  (has_stdout child = false ->
   outcome (spawnOutput w command args options) =
   Rejected (stdout_error command (default [] args)))
  /\ (has_stdout child = true ->
      (forall out,
         outcome (spawnOutput w command args options) = Fulfilled out <->
         (first_close (events child) = Some (Some 0%Z) \/
          first_close (events child) = Some None) /\
         out = output_until_close (events child))
      /\ (forall e,
         outcome (spawnOutput w command args options) = Rejected e <->
         exists n, first_close (events child) = Some (Some n) /\
                   n <> 0%Z /\ e = VNum n)).
Proof.
  intros Hspawn. split.
  - intros Hout. by rewrite spawnOutput_outcome, Hspawn, Hout.
  - intros Hout. rewrite (spawnOutput_on_child _ _ _ _ _ Hspawn Hout).
    destruct (first_close (events child)) as [[n|]|]; simpl.
    + destruct (Z.eqb_spec n 0) as [->|Hn]; simpl; split.
      * intros out. split; [intros [= <-]; auto | intros [_ ->]; done].
      * intros e. split; [done | intros (n & [= <-] & Hn & _); done].
      * intros out. split; [done | intros [[[= ->]|[=]] _]; done].
      * intros e. split; [intros [= <-]; eauto | intros (m & [= <-] & _ & ->); done].
    + split.
      * intros out. split; [intros [= <-]; auto | intros [_ ->]; done].
      * intros e. split; [done | intros (n & [=] & _)].
    + split.
      * intros out. split; [done | intros [[[=]|[=]] _]].
      * intros e. split; [done | intros (n & [=] & _)].
Qed.

Lemma spawnOutput_settlement_witness :
  outcome (spawnOutput world_no_stdout "git" None None) =
  Rejected (stdout_error "git" []).
Proof.
  exact (proj1 (spawnOutput_settlement world_no_stdout "git" None None
                  child_without_stdout eq_refl) eq_refl).
Defined.

(** C10: on a child whose output is piped, [spawnOutput] rejects only
    when the code of the close event is truthy, that is a number other than
    zero, and the reason is that code; when the code is [0] or [null] (a
    child ended by a signal) it fulfils with the chunks received before the
    close, concatenated. *)
Theorem spawnOutput_rejects_only_truthy w command args options child
    (chunks : list string) (code : option Z) (rest : list child_event) :
  spawn w command (default [] args) (parsed_options options) = Normal child ->
  has_stdout child = true ->
  events child = (Data <$> chunks) ++ Close code :: rest ->
  (code = Some 0%Z \/ code = None ->
   outcome (spawnOutput w command args options) =
   Fulfilled (foldr String.append "" chunks))
  /\ (forall e,
      outcome (spawnOutput w command args options) = Rejected e ->
      truthy (code_value code) = true /\
      exists n, code = Some n /\ n <> 0%Z /\ e = VNum n).
Proof.
  intros Hspawn Hout Hevs.
  rewrite (spawnOutput_on_child _ _ _ _ _ Hspawn Hout), Hevs.
  rewrite first_close_chunks, output_until_close_chunks.
  split.
  - intros Hcode. apply falsy_code in Hcode. by rewrite Hcode.
  - intros e. destruct (truthy (code_value code)) eqn:Htruthy; [|done].
    intros [= <-]. split; [done|].
    apply truthy_code in Htruthy as (n & -> & Hn). eauto.
Qed.

Lemma spawnOutput_rejects_only_truthy_witness :
  outcome (spawnOutput world_killed "git"
             (Some ["rev-list"; "--count"; "HEAD"]) None) = Fulfilled "7".
Proof.
  exact (proj1 (spawnOutput_rejects_only_truthy world_killed "git"
                  (Some ["rev-list"; "--count"; "HEAD"]) None
                  (child_with [Data "7"; Close None]) ["7"] None []
                  eq_refl eq_refl eq_refl) (or_intror eq_refl)).
Defined.

(** ** The scrapers *)

Lemma scrapeGitVersion_outcome sctx w :
  outcome (scrapeGitVersion sctx w) =
  match outcome (git_describe w) with
  | Rejected _ => Fulfilled (unknown_marker (sctx_localeDict sctx))
  | Pending => Pending
  | Fulfilled out =>
      match outcome (git_rev_list w) with
      | Rejected _ => Fulfilled (unknown_marker (sctx_localeDict sctx))
      | Pending => Pending
      | Fulfilled out2 =>
          Fulfilled (VStr (trim out +:+ " (build " +:+ trim out2 +:+ ")"))
      end
  end.
Proof.
  unfold scrapeGitVersion. fold (git_describe w). fold (git_rev_list w).
  rewrite outcome_try_or_return.
  destruct (outcome (git_describe w)) as [out|e|]; [|done..].
  rewrite outcome_try_or_return.
  by destruct (outcome (git_rev_list w)) as [out2|e|].
Qed.

Lemma scrapeProject_outcome sctx w :
  outcome (scrapeProject sctx w) =
  match cwd w with
  | Throw _ => Fulfilled (VObj [])
  | Normal dir =>
      match require w (join w dir "package.json") with
      | Throw _ => Fulfilled (VObj [])
      | Normal project => Fulfilled project
      end
  end.
Proof.
  unfold scrapeProject.
  rewrite outcome_try_catch, outcome_bind, outcome_sync.
  destruct (cwd w) as [dir|e]; [|done].
  rewrite outcome_bind, outcome_sync.
  by destruct (require w (join w dir "package.json")).
Qed.

Lemma scrapeKoishiVersion_outcome sctx w :
  outcome (scrapeKoishiVersion sctx w) =
  match require_resolve w "koishi/package.json" with
  | Throw _ => Fulfilled (unknown_marker (sctx_localeDict sctx))
  | Normal path =>
      match require w path with
      | Throw _ => Fulfilled (unknown_marker (sctx_localeDict sctx))
      | Normal pkg =>
          match destructure "version" pkg with
          | Throw _ => Fulfilled (unknown_marker (sctx_localeDict sctx))
          | Normal koishiVersion => Fulfilled koishiVersion
          end
      end
  end.
Proof.
  unfold scrapeKoishiVersion.
  rewrite outcome_try_catch, outcome_bind, outcome_sync.
  destruct (require_resolve w "koishi/package.json") as [path|e]; [|done].
  rewrite outcome_bind, outcome_sync.
  destruct (require w path) as [pkg|e]; [|done].
  rewrite outcome_bind, outcome_sync.
  by destruct (destructure "version" pkg).
Qed.

(** C2: when [git describe] fails, or when it goes through and
    [git rev-list] fails, [scrapeGitVersion] returns the unknown marker of
    the locale as its whole value; the description the first call
    produced is not part of it. *)
Theorem scrapeGitVersion_failure_unknown sctx w (e : jsval) :
  outcome (git_describe w) = Rejected e \/
  (exists out, outcome (git_describe w) = Fulfilled out /\
               outcome (git_rev_list w) = Rejected e) ->
  outcome (scrapeGitVersion sctx w) =
  Fulfilled (unknown_marker (sctx_localeDict sctx)).
Proof.
  intros [Hfirst | (out & Hfirst & Hsecond)];
    rewrite scrapeGitVersion_outcome, Hfirst; [done|].
  by rewrite Hsecond.
Qed.

Lemma scrapeGitVersion_failure_unknown_witness :
  outcome (scrapeGitVersion sample_sctx world_count_fails) =
  Fulfilled (VStr "（未知）").
Proof.
  apply (scrapeGitVersion_failure_unknown sample_sctx world_count_fails
           (VNum 129)).
  right. exists "v1.2.0
". split; reflexivity.
Defined.

(** C4: when both [git] calls go through, [scrapeGitVersion] returns the
    trimmed output of [git describe --tags --dirty], a space, and
    "(build N)" with N the trimmed output of [git rev-list --count HEAD]. *)
Theorem scrapeGitVersion_success sctx w (out out2 : string) :
  outcome (git_describe w) = Fulfilled out ->
  outcome (git_rev_list w) = Fulfilled out2 ->
  outcome (scrapeGitVersion sctx w) =
  Fulfilled (VStr (trim out +:+ " (build " +:+ trim out2 +:+ ")")).
Proof.
  intros Hfirst Hsecond.
  by rewrite scrapeGitVersion_outcome, Hfirst, Hsecond.
Qed.

Lemma scrapeGitVersion_success_witness :
  outcome (scrapeGitVersion sample_sctx world_tagged) =
  Fulfilled (VStr "v1.2.0-1-g0a1b2c3 (build 1)").
Proof.
  apply (scrapeGitVersion_success sample_sctx world_tagged
           "v1.2.0-1-g0a1b2c3
" "1
"); reflexivity.
Defined.

(** C5: a descriptor that cannot be read is recovered inside its own
    scraper.  [scrapeProject] returns the empty structure, which is not
    the unknown marker, when the working directory's [package.json] cannot
    be loaded; [scrapeKoishiVersion] returns the unknown marker when the
    host's descriptor cannot be resolved or loaded.  Neither rejects, and
    neither result depends on anything but that scraper's own reads. *)
Theorem descriptor_failure_recovered sctx w :
  (project_read_fails w ->
   outcome (scrapeProject sctx w) = Fulfilled (VObj []) /\
   VObj [] <> unknown_marker (sctx_localeDict sctx))
  /\ (koishi_read_fails w ->
      outcome (scrapeKoishiVersion sctx w) =
      Fulfilled (unknown_marker (sctx_localeDict sctx))).
Proof.
  split.
  - unfold project_read_fails. intros Hfail. split; [|done].
    rewrite scrapeProject_outcome.
    destruct (cwd w) as [dir|e]; [|done].
    by destruct (require w (join w dir "package.json")).
  - unfold koishi_read_fails. intros Hfail.
    rewrite scrapeKoishiVersion_outcome.
    destruct (require_resolve w "koishi/package.json") as [path|e]; [|done].
    by destruct (require w path).
Qed.

Lemma descriptor_failure_recovered_witness :
  outcome (scrapeProject sample_sctx world_no_files) = Fulfilled (VObj []) /\
  outcome (scrapeKoishiVersion sample_sctx world_no_files) =
  Fulfilled (VStr "（未知）").
Proof.
  split.
  - exact (proj1 (proj1 (descriptor_failure_recovered sample_sctx
                           world_no_files) I)).
  - exact (proj2 (descriptor_failure_recovered sample_sctx world_no_files) I).
Defined.

(** ** [Promise.all] *)

Section promise_all.
Context {A : Type}.
Implicit Types (ps : list (settle A)) (values : list (option A)).
Implicit Types (vs : list A) (sched : list nat).

Lemma all_loop_unfold ps sched values :
  all_loop ps sched values =
  match mapM id values with
  | Some vs => Fulfilled vs
  | None =>
      match sched with
      | [] => Pending
      | i :: sched' =>
          match ps !! i with
          | Some (Fulfilled v) => all_loop ps sched' (<[i := Some v]> values)
          | Some (Rejected e) => Rejected e
          | _ => all_loop ps sched' values
          end
      end
  end.
Proof. by destruct sched. Qed.

Lemma slots_agree_insert ps values i v :
  slots_agree ps values -> ps !! i = Some (Fulfilled v) ->
  slots_agree ps (<[i := Some v]> values).
Proof.
  intros Hagree Hi j u Hj. destruct (decide (i = j)) as [->|Hne].
  - apply list_lookup_insert_Some in Hj as [(_ & [= ->] & _)|[? _]]; done.
  - rewrite list_lookup_insert_ne in Hj by done. by apply Hagree.
Qed.

Lemma all_slots_filled values vs :
  mapM id values = Some vs -> values = Some <$> vs.
Proof.
  intros Hall%mapM_Some. induction Hall as [|x v values vs Hx _ IH]; [done|].
  simpl in Hx. by rewrite Hx, IH.
Qed.

(** Whatever the schedule, a fulfilled [Promise.all] carries the values
    of its inputs in input order. *)
Lemma all_loop_Fulfilled_inv ps sched values vs :
  length values = length ps -> slots_agree ps values ->
  all_loop ps sched values = Fulfilled vs -> ps = Fulfilled <$> vs.
Proof.
  revert values. induction sched as [|i sched IH]; intros values Hlen Hagree;
    rewrite all_loop_unfold; destruct (mapM id values) as [vs'|] eqn:Hall.
  1,3: intros [= ->]; apply all_slots_filled in Hall as ->;
    rewrite length_fmap in Hlen;
    apply list_eq_same_length with (length vs);
      [by rewrite length_fmap | done |];
    intros j x y Hj Hx Hy;
    apply list_lookup_fmap_Some in Hy as (v & -> & Hv);
    specialize (Hagree j v); rewrite list_lookup_fmap, Hv in Hagree;
    specialize (Hagree eq_refl); congruence.
  - done.
  - destruct (ps !! i) as [[v|e|]|] eqn:Hi; [|done|by apply IH..].
    apply IH; [by rewrite length_insert | by apply slots_agree_insert].
Qed.

Lemma Promise_all_Fulfilled_inv ps sched vs :
  Promise_all ps sched = Fulfilled vs -> ps = Fulfilled <$> vs.
Proof.
  apply all_loop_Fulfilled_inv; [by rewrite length_replicate|].
  intros i v Hi. apply lookup_replicate in Hi as [[=] _].
Qed.

Lemma all_loop_complete vs sched values :
  length values = length vs -> slots_pending vs sched values ->
  all_loop (Fulfilled <$> vs) sched values = Fulfilled vs.
Proof.
  revert values. induction sched as [|i sched IH]; intros values Hlen Hpend;
    rewrite all_loop_unfold; destruct (mapM id values) as [vs'|] eqn:Hall.
  1,3: f_equal; apply all_slots_filled in Hall as ->;
    rewrite length_fmap in Hlen;
    apply list_eq_same_length with (length vs); [done..|];
    intros j x y Hj Hx Hy;
    destruct (Hpend j y Hy) as [Hv|[Hv _]];
      rewrite list_lookup_fmap, Hx in Hv; by simplify_eq/=.
  - apply mapM_None, Exists_exists in Hall as (x & Hx & Hnone).
    simpl in Hnone. subst x. apply list_elem_of_lookup in Hx as [j Hj].
    destruct (lookup_lt_is_Some_2 vs j) as [v Hv].
    { rewrite <- Hlen. by eapply lookup_lt_Some. }
    destruct (Hpend j v Hv) as [?|[_ Hin]]; [congruence|].
    by apply elem_of_nil in Hin.
  - rewrite list_lookup_fmap.
    destruct (vs !! i) as [v|] eqn:Hi; simpl.
    + apply IH; [by rewrite length_insert|].
      intros j u Hj. destruct (decide (i = j)) as [->|Hne].
      * left. rewrite list_lookup_insert_eq; [congruence|].
        rewrite Hlen. by eapply lookup_lt_Some.
      * rewrite list_lookup_insert_ne by done.
        destruct (Hpend j u Hj) as [?|[? Hin]]; [by left|right].
        split; [done|]. apply elem_of_cons in Hin as [->|?]; done.
    + apply IH; [done|].
      intros j u Hj. destruct (Hpend j u Hj) as [?|[? Hin]]; [by left|right].
      split; [done|]. apply elem_of_cons in Hin as [->|?]; [congruence|done].
Qed.

Lemma Promise_all_complete vs sched :
  complete_schedule sched (length vs) ->
  Promise_all (Fulfilled <$> vs) sched = Fulfilled vs.
Proof.
  intros Hsched. apply all_loop_complete.
  - by rewrite length_replicate, length_fmap.
  - intros i v Hi. right. apply lookup_lt_Some in Hi as Hlt. split.
    + apply lookup_replicate_2. by rewrite length_fmap.
    + by apply Hsched.
Qed.

(** [Promise.all] rejects only with the reason of one of its inputs. *)
Lemma all_loop_Rejected_inv ps sched values e :
  all_loop ps sched values = Rejected e -> Rejected e ∈ ps.
Proof.
  revert values. induction sched as [|i sched IH]; intros values;
    rewrite all_loop_unfold; destruct (mapM id values); try done.
  destruct (ps !! i) as [[v|e'|]|] eqn:Hi; try by apply IH.
  intros [= ->]. by eapply list_elem_of_lookup_2.
Qed.

Lemma Promise_all_Rejected_inv ps sched e :
  Promise_all ps sched = Rejected e -> Rejected e ∈ ps.
Proof. apply all_loop_Rejected_inv. Qed.
End promise_all.

(** ** [Object.assign] over the scraped objects *)

Lemma Object_assign_snoc (t : JsObject) (objs : list JsObject) (o : JsObject) :
  Object_assign t (Some <$> (objs ++ [o])) = o ∪ Object_assign t (Some <$> objs).
Proof. unfold Object_assign. by rewrite fmap_app, foldl_app. Qed.

Lemma Object_assign_dom (t : JsObject) (objs : list JsObject) :
  dom (Object_assign t (Some <$> objs)) = dom t ∪ ⋃ (dom <$> objs).
Proof.
  induction objs as [|o objs IH] using rev_ind.
  - simpl. set_solver.
  - rewrite Object_assign_snoc, dom_union_L, IH, fmap_app, union_list_app_L.
    simpl. set_solver.
Qed.

(** The last source that has a key decides its value. *)
Lemma Object_assign_lookup_last (t : JsObject) (objs : list JsObject)
    (i : nat) (o : JsObject) (k : string) (v : jsval) :
  objs !! i = Some o -> o !! k = Some v ->
  (forall j o', i < j -> objs !! j = Some o' -> o' !! k = None) ->
  Object_assign t (Some <$> objs) !! k = Some v.
Proof.
  revert i. induction objs as [|o' objs IH] using rev_ind; intros i Hi Hk Hlast.
  - done.
  - rewrite Object_assign_snoc.
    destruct (decide (i = length objs)) as [->|Hne].
    + rewrite list_lookup_middle in Hi by done. injection Hi as ->.
      by apply lookup_union_Some_l.
    + assert (i < length objs) as Hlt.
      { apply lookup_lt_Some in Hi. rewrite length_app in Hi. simpl in Hi. lia. }
      rewrite lookup_app_l in Hi by done.
      rewrite lookup_union_r.
      * apply (IH i Hi Hk). intros j o'' Hj Ho''.
        apply (Hlast j o'' Hj). by apply lookup_app_l_Some.
      * apply (Hlast (length objs) o' Hlt). by apply list_lookup_middle.
Qed.

(** ** The scraper table *)

Lemma scraperList_elem (x : string) :
  x ∈ scraperList <-> x = "Project" \/ x = "GitVersion" \/ x = "KoishiVersion".
Proof.
  change scraperList with ["Project"; "GitVersion"; "KoishiVersion"].
  rewrite !elem_of_cons, elem_of_nil. tauto.
Qed.

Lemma derive_key_valid (x : string) :
  x ∈ scraperList -> derive_key x = Normal (key_name x).
Proof. intros [->|[->| ->]]%scraperList_elem; reflexivity. Qed.

Lemma key_name_valid (x : string) :
  x ∈ scraperList ->
  key_name x ∈ ["project"; "gitVersion"; "koishiVersion"].
Proof.
  intros [->|[->| ->]]%scraperList_elem;
    [apply (list_elem_of_lookup_2 _ 0) | apply (list_elem_of_lookup_2 _ 1)
    | apply (list_elem_of_lookup_2 _ 2)]; reflexivity.
Qed.

Lemma key_name_inj (x y : string) :
  x ∈ scraperList -> y ∈ scraperList -> key_name x = key_name y -> x = y.
Proof.
  intros [->|[->| ->]]%scraperList_elem [->|[->| ->]]%scraperList_elem;
    by intros [=].
Qed.

Lemma call_scraper_valid (x : string) sctx w :
  x ∈ scraperList ->
  exists f, scrapers_get ("scrape" +:+ x) = Some f /\
            call_scraper x sctx w = f sctx w /\
            (f = scrapeProject \/ f = scrapeGitVersion \/
             f = scrapeKoishiVersion).
Proof.
  intros [->|[->| ->]]%scraperList_elem; eexists; (split; [reflexivity|]);
    (split; [reflexivity|]); auto.
Qed.

Lemma spawnOutput_settles w command args options :
  world_closes w -> outcome (spawnOutput w command args options) <> Pending.
Proof.
  intros Hw. rewrite spawnOutput_outcome.
  destruct (spawn w command (default [] args) (parsed_options options))
    as [child|e] eqn:Hspawn; [|done].
  destruct (has_stdout child); [|done].
  rewrite on_events_spec.
  destruct (Hw _ _ _ _ Hspawn) as [code Hcode]. rewrite Hcode.
  by destruct (truthy (code_value code)).
Qed.

Lemma scraper_never_rejects (f : Scraper) sctx w e :
  f = scrapeProject \/ f = scrapeGitVersion \/ f = scrapeKoishiVersion ->
  outcome (f sctx w) <> Rejected e.
Proof.
  intros [->|[->| ->]].
  - rewrite scrapeProject_outcome.
    destruct (cwd w) as [dir|?]; [|done].
    by destruct (require w (join w dir "package.json")).
  - rewrite scrapeGitVersion_outcome.
    destruct (outcome (git_describe w)); [|done..].
    by destruct (outcome (git_rev_list w)).
  - rewrite scrapeKoishiVersion_outcome.
    destruct (require_resolve w "koishi/package.json") as [path|?]; [|done].
    destruct (require w path) as [pkg|?]; [|done].
    by destruct (destructure "version" pkg).
Qed.

Lemma scraper_settles (f : Scraper) sctx w :
  f = scrapeProject \/ f = scrapeGitVersion \/ f = scrapeKoishiVersion ->
  world_closes w -> exists v, outcome (f sctx w) = Fulfilled v.
Proof.
  intros Hf Hw.
  destruct (outcome (f sctx w)) as [v|e|] eqn:Hout; [by eauto|..].
  - by destruct (scraper_never_rejects f sctx w e Hf).
  - destruct Hf as [->|[->| ->]].
    + rewrite scrapeProject_outcome in Hout.
      destruct (cwd w) as [dir|?]; [|done].
      by destruct (require w (join w dir "package.json")).
    + rewrite scrapeGitVersion_outcome in Hout.
      pose proof (spawnOutput_settles w "git"
        (Some ["describe"; "--tags"; "--dirty"]) None Hw) as H1.
      pose proof (spawnOutput_settles w "git"
        (Some ["rev-list"; "--count"; "HEAD"]) None Hw) as H2.
      fold (git_describe w) in H1. fold (git_rev_list w) in H2.
      destruct (outcome (git_describe w)); [|done..].
      by destruct (outcome (git_rev_list w)).
    + rewrite scrapeKoishiVersion_outcome in Hout.
      destruct (require_resolve w "koishi/package.json") as [path|?]; [|done].
      destruct (require w path) as [pkg|?]; [|done].
      by destruct (destructure "version" pkg).
Qed.

Lemma scrape_one_outcome sctx w (x : string) :
  x ∈ scraperList ->
  outcome (scrape_one sctx w x) =
  match outcome (call_scraper x sctx w) with
  | Fulfilled v => Fulfilled {[ key_name x := v ]}
  | Rejected e => Rejected e
  | Pending => Pending
  end.
Proof.
  intros Hx. unfold scrape_one.
  rewrite outcome_bind, outcome_sync, (derive_key_valid x Hx), outcome_bind.
  by destruct (outcome (call_scraper x sctx w)).
Qed.

(** ** The aggregation *)

Section aggregation.
Variable sctx : ScrapeContext.
Variable W : nat -> World.
Variable sched : list nat.
Variable config : Config.
Hypothesis Hvalid : valid_config config.

Let names := config_scrapers config.
Let promises := imap (fun i x => scrape_one sctx (W i) x) names.

Lemma aggregate_outcome :
  outcome (aggregate sctx W sched config) =
  match Promise_all (snd <$> promises) sched with
  | Fulfilled objs => Fulfilled (Object_assign ∅ (Some <$> objs))
  | Rejected e => Rejected e
  | Pending => Pending
  end.
Proof.
  unfold aggregate. fold names. fold promises.
  rewrite outcome_bind. unfold outcome at 1. simpl.
  by destruct (Promise_all (snd <$> promises) sched).
Qed.

Lemma promises_lookup (i : nat) :
  (snd <$> promises) !! i =
  (fun x => outcome (scrape_one sctx (W i) x)) <$> names !! i.
Proof.
  unfold promises. rewrite list_lookup_fmap, list_lookup_imap.
  by destruct (names !! i).
Qed.

Lemma names_valid (i : nat) (x : string) :
  names !! i = Some x -> x ∈ scraperList.
Proof.
  intros Hi. unfold valid_config in Hvalid. rewrite Forall_forall in Hvalid.
  apply Hvalid. by eapply list_elem_of_lookup_2.
Qed.

(** What a fulfilled aggregation is made of: one single-key object per
    position, in input order, merged left to right. *)
Lemma aggregate_Fulfilled_inv (r : JsObject) :
  outcome (aggregate sctx W sched config) = Fulfilled r ->
  exists objs : list JsObject,
    r = Object_assign ∅ (Some <$> objs) /\
    length objs = length names /\
    forall i x, names !! i = Some x ->
      exists v, outcome (call_scraper x sctx (W i)) = Fulfilled v /\
                objs !! i = Some {[ key_name x := v ]}.
Proof.
  rewrite aggregate_outcome.
  destruct (Promise_all (snd <$> promises) sched) as [objs|e|] eqn:Hall;
    [|done..].
  intros [= <-]. apply Promise_all_Fulfilled_inv in Hall.
  exists objs. split; [done|]. split.
  - apply (f_equal length) in Hall. rewrite !length_fmap in Hall.
    unfold promises in Hall. by rewrite length_imap in Hall.
  - intros i x Hi. apply (f_equal (fun l => l !! i)) in Hall.
    rewrite promises_lookup, Hi, list_lookup_fmap in Hall. simpl in Hall.
    rewrite (scrape_one_outcome _ _ _ (names_valid i x Hi)) in Hall.
    destruct (objs !! i) as [o|]; [|done].
    destruct (outcome (call_scraper x sctx (W i))) as [v|?|]; [|done..].
    injection Hall as <-. eauto.
Qed.

Lemma aggregate_never_rejects (e : jsval) :
  outcome (aggregate sctx W sched config) <> Rejected e.
Proof.
  rewrite aggregate_outcome.
  destruct (Promise_all (snd <$> promises) sched) as [objs|e'|] eqn:Hall;
    [done| |done].
  apply Promise_all_Rejected_inv, list_elem_of_lookup in Hall as [i Hi].
  rewrite promises_lookup in Hi.
  destruct (names !! i) as [x|] eqn:Hx; [|done].
  injection Hi as Hi.
  rewrite (scrape_one_outcome _ _ _ (names_valid i x Hx)) in Hi.
  destruct (call_scraper_valid x sctx (W i) (names_valid i x Hx))
    as (f & _ & Hcall & Hf).
  rewrite Hcall in Hi.
  destruct (outcome (f sctx (W i))) as [v|e''|] eqn:Hout; [done| |done].
  by destruct (scraper_never_rejects f sctx (W i) e'' Hf).
Qed.

Lemma aggregate_complete :
  complete_schedule sched (length names) ->
  (forall i, i < length names -> world_closes (W i)) ->
  exists r, outcome (aggregate sctx W sched config) = Fulfilled r.
Proof.
  intros Hsched Hcloses. rewrite aggregate_outcome.
  set (objs := imap (fun i x =>
    match outcome (scrape_one sctx (W i) x) with
    | Fulfilled o => o
    | _ => ∅
    end) names).
  assert (snd <$> promises = Fulfilled <$> objs) as ->.
  { apply list_eq. intros i.
    rewrite promises_lookup. unfold objs.
    rewrite list_lookup_fmap, list_lookup_imap.
    destruct (names !! i) as [x|] eqn:Hx; [|done]. simpl. f_equal.
    rewrite (scrape_one_outcome _ _ _ (names_valid i x Hx)).
    destruct (call_scraper_valid x sctx (W i) (names_valid i x Hx))
      as (f & _ & -> & Hf).
    destruct (scraper_settles f sctx (W i) Hf) as [v ->]; [|done].
    apply Hcloses. by eapply lookup_lt_Some. }
  rewrite Promise_all_complete; [by eauto|].
  unfold objs. by rewrite length_imap.
Qed.

(** The keys of the merged object are the keys of the positions. *)
Lemma aggregate_dom (r : JsObject) :
  outcome (aggregate sctx W sched config) = Fulfilled r ->
  dom r = list_to_set (key_name <$> names).
Proof.
  intros (objs & -> & Hlen & Hobjs)%aggregate_Fulfilled_inv.
  rewrite Object_assign_dom, dom_empty_L, (left_id_L ∅ (∪)).
  apply set_eq. intros k.
  rewrite elem_of_union_list, elem_of_list_to_set, list_elem_of_fmap.
  split.
  - intros (X & (o & -> & [i Hi]%list_elem_of_lookup)%list_elem_of_fmap & Hk).
    destruct (lookup_lt_is_Some_2 names i) as [x Hx].
    { rewrite <- Hlen. by eapply lookup_lt_Some. }
    destruct (Hobjs i x Hx) as (v & _ & Ho).
    rewrite Hi in Ho. injection Ho as ->.
    rewrite dom_singleton_L, elem_of_singleton in Hk.
    exists x. split; [done|]. by eapply list_elem_of_lookup_2.
  - intros (x & -> & [i Hx]%list_elem_of_lookup).
    destruct (Hobjs i x Hx) as (v & _ & Ho).
    exists {[ key_name x ]}. split; [|by apply elem_of_singleton].
    apply list_elem_of_fmap. exists {[ key_name x := v ]}.
    split; [by rewrite dom_singleton_L|]. by eapply list_elem_of_lookup_2.
Qed.

(** The value under a key is the one of the last position with that
    name. *)
Lemma aggregate_lookup (r : JsObject) (i : nat) (x : string) :
  outcome (aggregate sctx W sched config) = Fulfilled r ->
  names !! i = Some x ->
  (forall j, i < j -> names !! j <> Some x) ->
  exists v, outcome (call_scraper x sctx (W i)) = Fulfilled v /\
            r !! key_name x = Some v.
Proof.
  intros (objs & -> & Hlen & Hobjs)%aggregate_Fulfilled_inv Hx Hlast.
  destruct (Hobjs i x Hx) as (v & Hv & Ho).
  exists v. split; [done|].
  apply (Object_assign_lookup_last ∅ objs i _ _ v Ho).
  { apply lookup_singleton_eq. }
  intros j o' Hj Ho'.
  destruct (lookup_lt_is_Some_2 names j) as [y Hy].
  { rewrite <- Hlen. by eapply lookup_lt_Some. }
  destruct (Hobjs j y Hy) as (u & _ & Ho'').
  rewrite Ho' in Ho''. injection Ho'' as ->.
  apply lookup_singleton_ne. intros Hkey.
  apply (Hlast j Hj). rewrite Hy. f_equal.
  by apply key_name_inj; [eapply names_valid..|].
Qed.
End aggregation.

Lemma key_set_size (names : list string) :
  Forall (fun x => x ∈ scraperList) names ->
  size (list_to_set (key_name <$> names) : gset string) =
  length (remove_dups names).
Proof.
  intros Hvalid. rewrite Forall_forall in Hvalid.
  assert ((list_to_set (key_name <$> names) : gset string) =
          list_to_set (key_name <$> remove_dups names)) as ->.
  { apply set_eq. intros k.
    rewrite !elem_of_list_to_set, !list_elem_of_fmap.
    by setoid_rewrite elem_of_remove_dups. }
  rewrite size_list_to_set, length_fmap; [done|].
  apply NoDup_fmap_2_strong; [|apply NoDup_remove_dups].
  intros x y Hx Hy. rewrite elem_of_remove_dups in Hx, Hy.
  apply key_name_inj; by apply Hvalid.
Qed.

Lemma world_tagged_closes : world_closes world_tagged.
Proof.
  intros command args options child. unfold world_tagged, sample_world. simpl.
  case_decide; intros [= <-]; by eexists.
Qed.

Lemma world_killed_closes : world_closes world_killed.
Proof.
  intros command args options child. unfold world_killed, sample_world. simpl.
  case_decide; intros [= <-]; by eexists.
Qed.

Lemma default_config_valid : valid_config default_config.
Proof. by apply Forall_forall. Qed.

Lemma duplicated_config_valid : valid_config duplicated_config.
Proof.
  apply Forall_forall. intros x Hx. apply scraperList_elem.
  apply elem_of_cons in Hx as [->|Hx]; [auto|].
  apply elem_of_cons in Hx as [->|Hx]; [auto|]. by apply elem_of_nil in Hx.
Qed.

(** C1: for a configuration drawn from the registered names, the record
    the aggregation produces has as its keys exactly the configured names
    with their first character lower-cased: one key per distinct name, no
    other key.  The three names give [project], [gitVersion] and
    [koishiVersion].  The record is produced whenever every invocation
    settles. *)
Theorem aggregate_key_set sctx W sched config :
  valid_config config ->
  (forall r, outcome (aggregate sctx W sched config) = Fulfilled r ->
     (forall k, k ∈ dom r <->
        exists x, x ∈ config_scrapers config /\ derive_key x = Normal k) /\
     size (dom r) = length (remove_dups (config_scrapers config)))
  /\ (complete_schedule sched (length (config_scrapers config)) ->
      (forall i, i < length (config_scrapers config) -> world_closes (W i)) ->
      exists r, outcome (aggregate sctx W sched config) = Fulfilled r)
  /\ derive_key <$> scraperList =
     [Normal "project"; Normal "gitVersion"; Normal "koishiVersion"].
Proof.
  intros Hvalid. split; [|split; [|done]].
  - intros r Hr. rewrite (aggregate_dom _ _ _ _ Hvalid r Hr). split.
    + intros k. rewrite elem_of_list_to_set, list_elem_of_fmap.
      unfold valid_config in Hvalid. rewrite Forall_forall in Hvalid.
      split.
      * intros (x & -> & Hx). exists x. split; [done|].
        by apply derive_key_valid, Hvalid.
      * intros (x & Hx & Hk). exists x. split; [|done].
        rewrite (derive_key_valid x (Hvalid x Hx)) in Hk. by injection Hk.
    + by apply key_set_size.
  - by apply aggregate_complete.
Qed.

Lemma aggregate_key_set_witness :
  exists r,
    outcome (aggregate sample_sctx worlds_tagged [2; 0; 1] default_config) =
    Fulfilled r.
Proof.
  apply (aggregate_key_set sample_sctx worlds_tagged [2; 0; 1] default_config
           default_config_valid).
  - intros i Hi. simpl in Hi.
    destruct i as [|[|[|i]]]; [| | |lia].
    + apply (list_elem_of_lookup_2 _ 1). reflexivity.
    + apply (list_elem_of_lookup_2 _ 2). reflexivity.
    + apply (list_elem_of_lookup_2 _ 0). reflexivity.
  - intros i _. apply world_tagged_closes.
Defined.

(** C6: with an empty scraper list the aggregation produces the empty
    record and performs no effect at all; the whole of [apply] spawns no
    process. *)
Theorem aggregate_empty_config sctx c W sched :
  aggregate sctx W sched empty_config = ([], Fulfilled ∅)
  /\ outcome (apply c W sched empty_config) =
     Fulfilled {| command := "about"; action := about_action ∅ |}
  /\ List.filter is_spawn (trace (apply c W sched empty_config)) = [].
Proof. destruct sched; repeat split; reflexivity. Qed.

(** C7, as worded, fails: with the same name at positions 0 and 1 and
    the invocation at position 1 settling first, the value filed under the
    key is the one of position 1, not the one of the invocation that
    settles last. *)
Lemma completion_order_does_not_win :
  ~ completion_order_wins sample_sctx duplicated_worlds [1; 0] duplicated_config.
Proof.
  intros Hclaim.
  pose proof (Hclaim _ 0 "GitVersion" _ eq_refl eq_refl eq_refl) as Hvalue.
  vm_compute in Hvalue. discriminate Hvalue.
Qed.

(** C7, amended: when the configured list holds a name more than once,
    every occurrence writes the same key, and the value that remains is
    the one computed by the invocation at the last position of that name
    in the input sequence, whatever the order in which the invocations
    settle. *)
Theorem aggregate_last_position_wins sctx W sched config
    (r : JsObject) (i : nat) (x : string) :
  valid_config config ->
  outcome (aggregate sctx W sched config) = Fulfilled r ->
  config_scrapers config !! i = Some x ->
  (forall j, i < j -> config_scrapers config !! j <> Some x) ->
  exists key v,
    derive_key x = Normal key /\
    outcome (call_scraper x sctx (W i)) = Fulfilled v /\
    r !! key = Some v.
Proof.
  intros Hvalid Hr Hx Hlast.
  destruct (aggregate_lookup sctx W sched config Hvalid r i x Hr Hx Hlast)
    as (v & Hv & Hlookup).
  exists (key_name x), v. split; [|done].
  apply derive_key_valid. unfold valid_config in Hvalid.
  rewrite Forall_forall in Hvalid. apply Hvalid.
  by eapply list_elem_of_lookup_2.
Qed.

Lemma aggregate_last_position_wins_witness :
  exists key v,
    derive_key "GitVersion" = Normal key /\
    outcome (call_scraper "GitVersion" sample_sctx (duplicated_worlds 1)) =
    Fulfilled v /\
    ({[ "gitVersion" := VStr "v1.2.0 (build 7)" ]} : JsObject) !! key = Some v.
Proof.
  apply (aggregate_last_position_wins sample_sctx duplicated_worlds [1; 0]
           duplicated_config _ 1 "GitVersion" duplicated_config_valid).
  - vm_compute. reflexivity.
  - reflexivity.
  - intros j Hj. destruct j as [|[|j]]; [lia | lia | discriminate].
Defined.

(** ** [apply] and the registered command *)

Lemma apply_outcome c W sched config :
  outcome (apply c W sched config) =
  match outcome (aggregate (apply_sctx c) W sched config) with
  | Fulfilled result =>
      Fulfilled {| command := "about"; action := about_action result |}
  | Rejected e => Rejected e
  | Pending => Pending
  end.
Proof.
  unfold apply. fold (apply_sctx c).
  rewrite outcome_bind. change (outcome (emit ?e)) with (Fulfilled tt).
  rewrite outcome_bind.
  by destruct (outcome (aggregate (apply_sctx c) W sched config)).
Qed.

(** C9: every registered scraper is found in the table and its promise
    never rejects, whatever the world does; so neither the aggregation nor
    [apply] rejects on a configuration drawn from the registered names. *)
Theorem scrapers_never_reject sctx :
  (forall x, x ∈ scraperList ->
     exists f, scrapers_get ("scrape" +:+ x) = Some f /\
               forall w e, outcome (f sctx w) <> Rejected e)
  /\ (forall c W sched config e,
        valid_config config ->
        outcome (aggregate sctx W sched config) <> Rejected e /\
        outcome (apply c W sched config) <> Rejected e).
Proof.
  split.
  - intros x Hx.
    destruct (call_scraper_valid x sctx world_tagged Hx) as (f & Hget & _ & Hf).
    exists f. split; [done|]. intros w e. by apply scraper_never_rejects.
  - intros c W sched config e Hvalid. split.
    + by apply aggregate_never_rejects.
    + rewrite apply_outcome.
      pose proof (aggregate_never_rejects (apply_sctx c) W sched config
                    Hvalid) as Hnever.
      destruct (outcome (aggregate (apply_sctx c) W sched config)) as [r|e'|];
        [done| |done].
      by destruct (Hnever e').
Qed.

Lemma scrapers_never_reject_witness :
  outcome (aggregate sample_sctx duplicated_worlds [1; 0] duplicated_config)
    <> Rejected (VNum 128) /\
  outcome (apply HostContext duplicated_worlds [1; 0] duplicated_config)
    <> Rejected (VNum 128).
Proof.
  exact (proj2 (scrapers_never_reject sample_sctx) HostContext
           duplicated_worlds [1; 0] duplicated_config (VNum 128)
           duplicated_config_valid).
Defined.

(** C8: once [apply] has gone through, the registered [about] action
    answers with the rendering of the record captured at startup.  It
    performs no effect, so nothing is scraped again, and its answer does
    not depend on the world it is invoked in: two invocations render the
    same text. *)
Theorem about_action_snapshot c W sched config (reg : Registration) :
  outcome (apply c W sched config) = Fulfilled reg ->
  command reg = "about" /\
  exists result : JsObject,
    outcome (aggregate (apply_sctx c) W sched config) = Fulfilled result /\
    forall (w1 w2 : World) (argv : Argv),
      action reg w1 argv =
        ([], text (session argv) "commands.about.template" result) /\
      action reg w1 argv = action reg w2 argv.
Proof.
  rewrite apply_outcome.
  destruct (outcome (aggregate (apply_sctx c) W sched config)) as [result|e|];
    [|done..].
  intros [= <-]. split; [done|]. exists result. split; [done|].
  intros w1 w2 argv. by split.
Qed.

Lemma about_action_snapshot_witness :
  command {| command := "about"; action := about_action tagged_record |} =
  "about" /\
  exists result : JsObject,
    outcome (aggregate (apply_sctx HostContext) worlds_tagged [2; 0; 1]
               default_config) = Fulfilled result /\
    forall (w1 w2 : World) (argv : Argv),
      about_action tagged_record w1 argv =
        ([], text (session argv) "commands.about.template" result) /\
      about_action tagged_record w1 argv = about_action tagged_record w2 argv.
Proof.
  apply (about_action_snapshot HostContext worlds_tagged [2; 0; 1]
           default_config
           {| command := "about"; action := about_action tagged_record |}).
  vm_compute. reflexivity.
Defined.

(** * Further properties of the code *)

(** ** Traces of the combinators *)

Lemma trace_try_catch {A} (m : Async A) (h : jsval -> Async A) :
  trace (try_catch m h) =
  match outcome m with
  | Rejected e => trace m ++ trace (h e)
  | _ => trace m
  end.
Proof. by destruct m as [t [a|e|]]. Qed.

Lemma trace_try_or_return {A B} (m : Async A) h (k : A -> Async B) :
  trace (try_or_return m h k) =
  match outcome m with
  | Fulfilled a => trace m ++ trace (k a)
  | Rejected e => trace m ++ trace (h e)
  | Pending => trace m
  end.
Proof. by destruct m as [t [a|e|]]. Qed.

Lemma trace_sync {A} (c : completion A) : trace (sync c) = [].
Proof. by destruct c. Qed.


(** ** The scraper table and the schema *)

Lemma scrapers_get_Some (name : string) (f : Scraper) :
  scrapers_get name = Some f ->
  (name = "scrapeProject" /\ f = scrapeProject) \/
  (name = "scrapeGitVersion" /\ f = scrapeGitVersion) \/
  (name = "scrapeKoishiVersion" /\ f = scrapeKoishiVersion).
Proof.
  unfold scrapers_get, scrapers. cbn [list_find fmap option_fmap option_map fst].
  repeat case_decide; cbn; intros [= <-]; subst; auto.
Qed.

Lemma scrapers_get_registered (x : string) (f : Scraper) :
  scrapers_get ("scrape" +:+ x) = Some f ->
  x ∈ scraperList /\
  (f = scrapeProject \/ f = scrapeGitVersion \/ f = scrapeKoishiVersion).
Proof.
  intros Hget. rewrite scraperList_elem.
  destruct (scrapers_get_Some _ _ Hget) as [[Hn ->]|[[Hn ->]|[Hn ->]]];
    apply (inj (String.app "scrape")) in Hn; auto.
Qed.

(** X1: the names the schema accepts are exactly the names for which the
    lookup ['scrape' + x] in the scraper table finds a function. *)
Theorem schema_matches_table (x : string) :
  x ∈ scraperList <-> is_Some (scrapers_get ("scrape" +:+ x)).
Proof.
  split.
  - intros Hx. destruct (call_scraper_valid x sample_sctx world_tagged Hx)
      as (f & Hget & _). by exists f.
  - intros [f Hget]. by apply (scrapers_get_registered x f).
Qed.

(** ** [spawnOutput]: options, effects, and hanging *)

(** X2: in the options [spawnOutput] passes to [spawn], an option given
    by the caller wins over the defaults, and the defaults [stdio: 'pipe']
    and [shell: true] hold for what the caller leaves out. *)
Theorem parsed_options_lookup (options : option JsObject) (k : string) :
  parsed_options options !! k =
  match options ≫= (fun o => o !! k) with
  | Some v => Some v
  | None =>
      if decide (k = "stdio") then Some (VStr "pipe")
      else if decide (k = "shell") then Some (VBool true)
      else None
  end.
Proof.
  assert (spawn_defaults !! k =
          if decide (k = "stdio") then Some (VStr "pipe")
          else if decide (k = "shell") then Some (VBool true) else None) as Hd.
  { unfold spawn_defaults. rewrite lookup_insert. case_decide as Hshell.
    - subst k. by rewrite decide_False, decide_True.
    - rewrite lookup_insert. case_decide as Hstdio.
      + subst k. by rewrite decide_True.
      + rewrite decide_False, decide_False by done. apply lookup_empty. }
  unfold parsed_options, Object_assign. cbn [foldl].
  rewrite (right_id_L ∅ (∪)).
  destruct options as [o|]; cbn [mbind option_bind]; [|exact Hd].
  rewrite lookup_union. rewrite Hd.
  destruct (o !! k) as [v|]; [|by rewrite (left_id_L None (∪))].
  by repeat case_decide.
Qed.

Lemma trace_spawnOutput w command args options :
  trace (spawnOutput w command args options) =
  [ESpawn command (default [] args) (parsed_options options)].
Proof.
  unfold spawnOutput. fold (parsed_options options).
  rewrite trace_bind. change (outcome (emit ?e)) with (Fulfilled tt).
  change (trace (emit ?e)) with [e].
  rewrite trace_bind, outcome_sync, trace_sync.
  destruct (spawn w command (default [] args) (parsed_options options))
    as [child|e]; [|done].
  by destruct (has_stdout child).
Qed.

(** X3: [spawnOutput] has no timeout.  On a child whose output is piped,
    its promise stays pending exactly when the child never emits ['close'];
    a child without [stdout] and a [spawn] that throws settle it at once,
    with a rejection. *)
Theorem spawnOutput_pending_iff w command args options :
  outcome (spawnOutput w command args options) = Pending <->
  exists child,
    spawn w command (default [] args) (parsed_options options) = Normal child /\
    has_stdout child = true /\
    first_close (events child) = None.
Proof.
  rewrite spawnOutput_outcome.
  destruct (spawn w command (default [] args) (parsed_options options))
    as [child|e]; [|split; [done | by intros (? & [=] & _)]].
  destruct (has_stdout child) eqn:Hout.
  - rewrite on_events_spec. split.
    + intros Hpending. exists child. split; [done|]. split; [done|].
      destruct (first_close (events child)) as [code|]; [|done].
      by destruct (truthy (code_value code)).
    + intros (? & [= <-] & _ & ->). done.
  - split; [done|]. intros (? & [= <-] & Hout' & _). congruence.
Qed.

(** ** The scrapers: effects and edge cases *)

(** X4: [scrapeGitVersion] runs its two [git] calls one after the other:
    [rev-list] is spawned only once [describe] has gone through.  A call
    that fails is logged as a message followed by the error, and ends the
    scraper; calls that go through log nothing. *)
Theorem scrapeGitVersion_trace sctx w :
  trace (scrapeGitVersion sctx w) =
  match outcome (git_describe w) with
  | Rejected e =>
      [spawn_describe;
       EWarn (logger_name (l sctx)) (VStr "failed to get version:");
       EWarn (logger_name (l sctx)) e]
  | Pending => [spawn_describe]
  | Fulfilled _ =>
      spawn_describe ::
      match outcome (git_rev_list w) with
      | Rejected e =>
          [spawn_rev_list;
           EWarn (logger_name (l sctx)) (VStr "failed to get build number");
           EWarn (logger_name (l sctx)) e]
      | _ => [spawn_rev_list]
      end
  end.
Proof.
  unfold scrapeGitVersion. fold (git_describe w). fold (git_rev_list w).
  rewrite trace_try_or_return.
  unfold git_describe at 2 3 4. rewrite trace_spawnOutput.
  destruct (outcome (git_describe w)) as [out|e|]; [|done..].
  rewrite trace_try_or_return.
  unfold git_rev_list at 2 3 4. rewrite trace_spawnOutput.
  by destruct (outcome (git_rev_list w)) as [out2|e|].
Qed.

(** X5: a [git describe] ended by a signal does not degrade the value to
    the unknown marker: the output it wrote before it was ended, however
    partial, becomes the description part of the version string. *)
Theorem scrapeGitVersion_signal_partial sctx w child
    (chunks : list string) (rest : list child_event) (out2 : string) :
  spawn w "git" ["describe"; "--tags"; "--dirty"] (parsed_options None) =
    Normal child ->
  has_stdout child = true ->
  events child = (Data <$> chunks) ++ Close None :: rest ->
  outcome (git_rev_list w) = Fulfilled out2 ->
  outcome (scrapeGitVersion sctx w) =
  Fulfilled (VStr (trim (foldr String.append "" chunks) +:+
                   " (build " +:+ trim out2 +:+ ")")).
Proof.
  intros Hspawn Hout Hevs Hsecond.
  rewrite scrapeGitVersion_outcome. unfold git_describe.
  rewrite (spawnOutput_on_child w "git"
             (Some ["describe"; "--tags"; "--dirty"]) None child Hspawn Hout).
  rewrite Hevs.
  rewrite first_close_chunks, output_until_close_chunks.
  cbn [code_value truthy]. by rewrite Hsecond.
Qed.

Lemma scrapeGitVersion_signal_partial_witness :
  outcome (scrapeGitVersion sample_sctx world_killed) =
  Fulfilled (VStr "v1.2.0 (build 7)").
Proof.
  apply (scrapeGitVersion_signal_partial sample_sctx world_killed
           (child_with [Data "v1.2.0"; Close None]) ["v1.2.0"] [] "7");
    reflexivity.
Defined.

(** X6: [scrapeProject] hands on whatever the descriptor holds, of any
    shape, and logs nothing; when [process.cwd] or [require] throws it
    logs the message and then the error, and returns the empty object. *)
Theorem scrapeProject_behaviour sctx w :
  scrapeProject sctx w =
  match load_project w with
  | Normal project => ([], Fulfilled project)
  | Throw e =>
      ([EWarn (logger_name (l sctx)) (VStr "failed to get project info");
        EWarn (logger_name (l sctx)) e],
       Fulfilled (VObj []))
  end.
Proof.
  unfold scrapeProject, load_project.
  destruct (cwd w) as [dir|e]; [|reflexivity].
  unfold try_catch, mbind, async_bind. simpl.
  destruct (require w (join w dir "package.json")); reflexivity.
Qed.

Lemma scrapeKoishiVersion_loaded sctx w (pkg : jsval) :
  load_koishi w = Normal pkg ->
  scrapeKoishiVersion sctx w =
  match destructure "version" pkg with
  | Normal koishiVersion => ([], Fulfilled koishiVersion)
  | Throw e =>
      ([EWarn (logger_name (l sctx)) (VStr "failed to get koishi version");
        EWarn (logger_name (l sctx)) e],
       Fulfilled (unknown_marker (sctx_localeDict sctx)))
  end.
Proof.
  unfold scrapeKoishiVersion, load_koishi.
  destruct (require_resolve w "koishi/package.json") as [path|e]; [|done].
  destruct (require w path) as [pkg'|e] eqn:Hreq; [|done].
  intros [= ->]. unfold try_catch, mbind, async_bind. simpl. rewrite Hreq.
  simpl. destruct (destructure "version" pkg); reflexivity.
Qed.

(** X7: what [scrapeKoishiVersion] makes of a descriptor that was read.
    The value of its [version] field is returned as it is; a descriptor
    object without that field gives [undefined], not the unknown marker,
    and no warning; a descriptor that is [null] makes the destructuring
    throw, which is logged and gives the unknown marker. *)
Theorem scrapeKoishiVersion_version_field sctx w :
  (forall pre post v,
     load_koishi w = Normal (VObj (pre ++ ("version", v) :: post)) ->
     "version" ∉ pre.*1 ->
     scrapeKoishiVersion sctx w = ([], Fulfilled v))
  /\ (forall fields,
     load_koishi w = Normal (VObj fields) ->
     "version" ∉ fields.*1 ->
     scrapeKoishiVersion sctx w = ([], Fulfilled VUndefined))
  /\ (load_koishi w = Normal VNull ->
      outcome (scrapeKoishiVersion sctx w) =
      Fulfilled (unknown_marker (sctx_localeDict sctx)) /\
      length (trace (scrapeKoishiVersion sctx w)) = 2).
Proof.
  split; [|split].
  - intros pre post v Hload Hpre.
    rewrite (scrapeKoishiVersion_loaded _ _ _ Hload). cbn [destructure].
    assert (list_find (fun kv : string * jsval => kv.1 = "version")
              (pre ++ ("version", v) :: post) =
            Some (length pre, ("version", v))) as ->; [|done].
    apply list_find_Some. split; [by apply list_lookup_middle|].
    split; [done|]. intros j [k u] Hj Hlt Hk. simpl in Hk. subst k.
    apply Hpre. apply list_elem_of_fmap. exists ("version", u).
    split; [done|]. apply (list_elem_of_lookup_2 _ j).
    by rewrite lookup_app_l in Hj.
  - intros fields Hload Hfields.
    rewrite (scrapeKoishiVersion_loaded _ _ _ Hload). cbn [destructure].
    assert (list_find (fun kv : string * jsval => kv.1 = "version") fields =
            None) as ->; [|done].
    apply list_find_None, Forall_forall. intros [k u] Hin Hk.
    simpl in Hk. subst k. apply Hfields, list_elem_of_fmap.
    by exists ("version", u).
  - intros Hload. by rewrite (scrapeKoishiVersion_loaded _ _ _ Hload).
Qed.

Lemma scrapeKoishiVersion_version_field_witness :
  scrapeKoishiVersion sample_sctx world_no_version = ([], Fulfilled VUndefined)
  /\ scrapeKoishiVersion sample_sctx world_tagged =
     ([], Fulfilled (VStr "4.17.0")).
Proof.
  split.
  - apply (proj1 (proj2 (scrapeKoishiVersion_version_field sample_sctx
                           world_no_version)) [("name", VStr "koishi")]);
      [reflexivity|].
    intros Hin. apply list_elem_of_singleton in Hin. discriminate Hin.
  - apply (proj1 (scrapeKoishiVersion_version_field sample_sctx world_tagged)
             [("name", VStr "koishi")] [] (VStr "4.17.0")); [reflexivity|].
    intros Hin. apply list_elem_of_singleton in Hin. discriminate Hin.
Defined.

(** ** Effects of the scrapers and of the aggregation *)

Lemma filter_concat_nil {A} (f : A -> bool) (ls : list (list A)) :
  Forall (fun t => List.filter f t = []) ls -> List.filter f (concat ls) = [].
Proof.
  induction 1 as [|t ls Ht _ IH]; [done|].
  cbn [concat]. by rewrite List.filter_app, Ht, IH.
Qed.

Lemma filter_nil_Forall {A} (f : A -> bool) (t : list A) :
  Forall (fun e => f e = false) t -> List.filter f t = [].
Proof.
  induction 1 as [|e t He _ IH]; [done|]. cbn [List.filter]. by rewrite He.
Qed.

Lemma scrapeProject_effects sctx w :
  Forall (fun e => is_warn e = true) (trace (scrapeProject sctx w)).
Proof.
  unfold scrapeProject. rewrite trace_try_catch, trace_bind, !outcome_bind.
  rewrite outcome_sync, trace_sync.
  destruct (cwd w) as [dir|e]; [|by repeat constructor].
  rewrite trace_bind, outcome_bind, outcome_sync, trace_sync.
  destruct (require w (join w dir "package.json")); by repeat constructor.
Qed.

Lemma scrapeKoishiVersion_effects sctx w :
  Forall (fun e => is_warn e = true) (trace (scrapeKoishiVersion sctx w)).
Proof.
  unfold scrapeKoishiVersion.
  rewrite trace_try_catch, trace_bind, !outcome_bind.
  rewrite outcome_sync, trace_sync.
  destruct (require_resolve w "koishi/package.json") as [path|e];
    [|by repeat constructor].
  rewrite trace_bind, !outcome_bind, outcome_sync, trace_sync.
  destruct (require w path) as [pkg|e]; [|by repeat constructor].
  rewrite trace_bind, outcome_bind, outcome_sync, trace_sync.
  destruct (destructure "version" pkg); by repeat constructor.
Qed.

Lemma scrapeGitVersion_effects sctx w :
  Forall (fun e => scraper_effect e = true) (trace (scrapeGitVersion sctx w)).
Proof.
  unfold scrapeGitVersion. rewrite trace_try_or_return, trace_spawnOutput.
  destruct (outcome (spawnOutput w "git" _ None)); [|by repeat constructor..].
  rewrite trace_try_or_return, trace_spawnOutput.
  destruct (outcome (spawnOutput w "git" _ None)); by repeat constructor.
Qed.

Lemma warn_is_scraper_effect (t : list effect) :
  Forall (fun e => is_warn e = true) t ->
  Forall (fun e => scraper_effect e = true) t.
Proof.
  intros Hwarn. eapply Forall_impl; [exact Hwarn|].
  intros e He. unfold scraper_effect. by rewrite He, orb_true_r.
Qed.

Lemma trace_scrape_one sctx w (x : string) :
  trace (scrape_one sctx w x) = [] \/
  exists f, scrapers_get ("scrape" +:+ x) = Some f /\
            trace (scrape_one sctx w x) = trace (f sctx w).
Proof.
  unfold scrape_one. rewrite trace_bind, outcome_sync, trace_sync.
  destruct (derive_key x) as [key|e]; [|by left].
  rewrite trace_bind. unfold call_scraper.
  destruct (scrapers_get ("scrape" +:+ x)) as [f|]; [|by left].
  right. exists f. split; [done|].
  destruct (outcome (f sctx w)); [|done..]. apply app_nil_r.
Qed.

(** Whatever the configuration, the invocations only spawn and warn. *)
Lemma scrape_one_effects sctx w (x : string) :
  Forall (fun e => scraper_effect e = true) (trace (scrape_one sctx w x)).
Proof.
  destruct (trace_scrape_one sctx w x) as [->|(f & Hget & ->)]; [done|].
  destruct (scrapers_get_registered x f Hget) as [_ [->|[->| ->]]].
  - apply warn_is_scraper_effect, scrapeProject_effects.
  - apply scrapeGitVersion_effects.
  - apply warn_is_scraper_effect, scrapeKoishiVersion_effects.
Qed.

Lemma trace_aggregate sctx W sched config :
  trace (aggregate sctx W sched config) =
  concat (invocation_traces sctx W config).
Proof.
  unfold aggregate, invocation_traces.
  set (promises := imap _ (config_scrapers config)).
  assert (promises.*1 =
          imap (fun i x => trace (scrape_one sctx (W i) x))
            (config_scrapers config)) as <-.
  { unfold promises. by rewrite fmap_imap. }
  rewrite trace_bind.
  change (outcome (?t, ?o)) with o. change (trace (?t, ?o)) with t.
  destruct (Promise_all (promises.*2) sched); [|done..]. apply app_nil_r.
Qed.

Lemma aggregate_no_registration sctx W sched config :
  registrations (trace (aggregate sctx W sched config)) = [].
Proof.
  rewrite trace_aggregate. apply filter_concat_nil, Forall_forall.
  intros t [i Hi]%list_elem_of_lookup. unfold invocation_traces in Hi.
  rewrite list_lookup_imap in Hi.
  destruct (config_scrapers config !! i) as [x|]; [|done].
  injection Hi as <-. apply filter_nil_Forall.
  eapply Forall_impl; [apply scrape_one_effects|].
  by intros [] He.
Qed.

Lemma trace_apply c W sched config :
  trace (apply c W sched config) =
  EDefine "zh-CN" :: trace (aggregate (apply_sctx c) W sched config) ++
  match outcome (aggregate (apply_sctx c) W sched config) with
  | Fulfilled result => [EWarnRecord "about" result; ECommand "about"]
  | _ => []
  end.
Proof.
  unfold apply. fold (apply_sctx c).
  rewrite trace_bind. change (outcome (emit ?e)) with (Fulfilled tt).
  change (trace (emit ?e)) with [e]. cbn [app]. f_equal.
  rewrite trace_bind.
  destruct (outcome (aggregate (apply_sctx c) W sched config));
    [done | by rewrite app_nil_r..].
Qed.

(** ** The aggregation under other schedules and configurations *)






Lemma spawns_scraper_trace sctx w (x : string) :
  x <> "GitVersion" -> spawns (trace (scrape_one sctx w x)) = [].
Proof.
  intros Hx. destruct (trace_scrape_one sctx w x) as [->|(f & Hget & ->)];
    [done|].
  apply filter_nil_Forall.
  destruct (scrapers_get_Some _ _ Hget) as [[_ ->]|[[Hn _]|[_ ->]]].
  - eapply Forall_impl; [apply scrapeProject_effects|]. by intros [].
  - apply (inj (String.app "scrape")) in Hn. done.
  - eapply Forall_impl; [apply scrapeKoishiVersion_effects|]. by intros [].
Qed.

Lemma spawns_apply c W sched config :
  spawns (trace (apply c W sched config)) =
  spawns (trace (aggregate (apply_sctx c) W sched config)).
Proof.
  rewrite trace_apply. unfold spawns. cbn [List.filter is_spawn].
  rewrite List.filter_app.
  destruct (outcome (aggregate (apply_sctx c) W sched config));
    apply app_nil_r.
Qed.

(** X9: only the [GitVersion] scraper starts processes: a configuration
    that does not select it makes neither the aggregation nor [apply]
    spawn anything, whatever the other names are. *)
Theorem no_git_no_spawn sctx c W sched config :
  "GitVersion" ∉ config_scrapers config ->
  spawns (trace (aggregate sctx W sched config)) = [] /\
  spawns (trace (apply c W sched config)) = [].
Proof.
  intros Hgit.
  assert (forall s, spawns (trace (aggregate s W sched config)) = []) as Hagg.
  { intros s. rewrite trace_aggregate. apply filter_concat_nil, Forall_forall.
    intros t [i Hi]%list_elem_of_lookup. unfold invocation_traces in Hi.
    rewrite list_lookup_imap in Hi.
    destruct (config_scrapers config !! i) as [x|] eqn:Hx; [|done].
    injection Hi as <-. apply spawns_scraper_trace. intros ->.
    apply Hgit. by eapply list_elem_of_lookup_2. }
  split; [apply Hagg|]. rewrite spawns_apply. apply Hagg.
Qed.

Lemma no_git_no_spawn_witness :
  spawns (trace (aggregate sample_sctx worlds_tagged [0; 1] files_only_config))
    = [] /\
  spawns (trace (apply HostContext worlds_tagged [0; 1] files_only_config))
    = [].
Proof.
  apply (no_git_no_spawn sample_sctx HostContext worlds_tagged [0; 1]
           files_only_config).
  intros Hin. apply elem_of_cons in Hin as [Hin|Hin]; [discriminate Hin|].
  apply list_elem_of_singleton in Hin. discriminate Hin.
Defined.

(** ** [apply]: what reaches the host *)

Lemma registrations_apply c W sched config :
  registrations (trace (apply c W sched config)) =
  match outcome (aggregate (apply_sctx c) W sched config) with
  | Fulfilled _ => [ECommand "about"]
  | _ => []
  end.
Proof.
  rewrite trace_apply. unfold registrations. cbn [List.filter is_command].
  rewrite List.filter_app.
  fold (registrations (trace (aggregate (apply_sctx c) W sched config))).
  rewrite aggregate_no_registration.
  by destruct (outcome (aggregate (apply_sctx c) W sched config)).
Qed.

(** X10: there is no timeout anywhere.  When one of the two [git] calls
    of a configured [GitVersion] never closes, the aggregation never
    settles, [apply] never settles, and the [about] command is never
    registered, whatever the other scrapers produced. *)
Theorem hung_git_blocks_registration c W sched config (i : nat) :
  valid_config config ->
  config_scrapers config !! i = Some "GitVersion" ->
  outcome (git_describe (W i)) = Pending \/
  (exists out, outcome (git_describe (W i)) = Fulfilled out /\
               outcome (git_rev_list (W i)) = Pending) ->
  outcome (apply c W sched config) = Pending /\
  registrations (trace (apply c W sched config)) = [].
Proof.
  intros Hvalid Hi Hhang.
  assert (outcome (aggregate (apply_sctx c) W sched config) = Pending) as Hagg.
  { destruct (outcome (aggregate (apply_sctx c) W sched config))
      as [r|e|] eqn:Hout; [| |done].
    - apply (aggregate_Fulfilled_inv _ _ _ _ Hvalid) in Hout
        as (objs & _ & _ & Hobjs).
      destruct (Hobjs i "GitVersion" Hi) as (v & Hv & _).
      change (call_scraper "GitVersion" (apply_sctx c) (W i))
        with (scrapeGitVersion (apply_sctx c) (W i)) in Hv.
      rewrite scrapeGitVersion_outcome in Hv.
      destruct Hhang as [Hd|(out & Hd & Hr)]; rewrite Hd in Hv; [done|].
      by rewrite Hr in Hv.
    - by destruct (aggregate_never_rejects (apply_sctx c) W sched config
                     Hvalid e). }
  by rewrite apply_outcome, registrations_apply, Hagg.
Qed.

Lemma git_only_config_valid : valid_config git_only_config.
Proof.
  apply Forall_forall. intros x Hx%list_elem_of_singleton. subst x.
  apply scraperList_elem. auto.
Qed.

Lemma hung_git_blocks_registration_witness :
  outcome (apply HostContext worlds_hung [0] git_only_config) = Pending /\
  registrations (trace (apply HostContext worlds_hung [0] git_only_config))
    = [].
Proof.
  apply (hung_git_blocks_registration HostContext worlds_hung [0]
           git_only_config 0 git_only_config_valid); [reflexivity|].
  left. reflexivity.
Defined.

Section promise_all_rejection.
Context {A : Type}.
Implicit Types (ps : list (settle A)) (values : list (option A)).

(** A rejected promise that the schedule reaches makes [Promise.all]
    reject: its slot is never filled, so the loop cannot end before. *)
Lemma all_loop_reaches_rejection ps (sched : list nat) values (i : nat) e :
  ps !! i = Some (Rejected e) -> i ∈ sched ->
  length values = length ps -> slots_agree ps values ->
  exists e', all_loop ps sched values = Rejected e'.
Proof.
  intros Hi. revert values.
  induction sched as [|j sched IH]; intros values Hin Hlen Hagree.
  { by apply elem_of_nil in Hin. }
  rewrite all_loop_unfold.
  destruct (mapM id values) as [vs|] eqn:Hall.
  { apply all_slots_filled in Hall. subst values.
    destruct (lookup_lt_is_Some_2 vs i) as [v Hv].
    { rewrite length_fmap in Hlen. rewrite Hlen. by eapply lookup_lt_Some. }
    specialize (Hagree i v). rewrite list_lookup_fmap, Hv in Hagree.
    specialize (Hagree eq_refl). congruence. }
  apply elem_of_cons in Hin as [<-|Hin].
  { rewrite Hi. eauto. }
  destruct (ps !! j) as [[v|e'|]|] eqn:Hj; [|by eauto|by apply IH..].
  apply IH; [done | by rewrite length_insert | by apply slots_agree_insert].
Qed.

Lemma Promise_all_reaches_rejection ps (sched : list nat) (i : nat) e :
  ps !! i = Some (Rejected e) -> i ∈ sched ->
  exists e', Promise_all ps sched = Rejected e'.
Proof.
  intros Hi Hin.
  apply (all_loop_reaches_rejection ps sched _ i e Hi Hin).
  - by rewrite length_replicate.
  - intros j v Hj. apply lookup_replicate in Hj as [[=] _].
Qed.
End promise_all_rejection.

(** An invocation rejects only for a name that is not registered, and
    then with a [TypeError]. *)
Lemma scrape_one_Rejected_inv sctx w (x : string) (e : jsval) :
  outcome (scrape_one sctx w x) = Rejected e ->
  exists msg, e = VError "TypeError" msg.
Proof.
  unfold scrape_one. rewrite outcome_bind, outcome_sync.
  destruct x as [|ch x]; cbn [derive_key]; [intros [= <-]; eauto|].
  rewrite outcome_bind. unfold call_scraper.
  destruct (scrapers_get ("scrape" +:+ String ch x)) as [f|] eqn:Hget;
    [|intros [= <-]; eauto].
  destruct (scrapers_get_registered _ f Hget) as [_ Hf].
  destruct (outcome (f sctx w)) as [v|e'|] eqn:Hout; [done| |done].
  by destruct (scraper_never_rejects f sctx w e' Hf).
Qed.

Lemma scrape_one_unregistered sctx w (x : string) :
  x ∉ scraperList -> exists e, outcome (scrape_one sctx w x) = Rejected e.
Proof.
  intros Hx. unfold scrape_one. rewrite outcome_bind, outcome_sync.
  destruct (derive_key x) as [key|e]; [|by eauto].
  rewrite outcome_bind. unfold call_scraper.
  destruct (scrapers_get ("scrape" +:+ x)) as [f|] eqn:Hget; [|by eauto].
  by destruct Hx, (scrapers_get_registered x f Hget).
Qed.

(** X11: a configured name that the table does not have is not skipped.
    Its lookup gives [undefined], the call throws, and as soon as the
    schedule reaches that position the aggregation and [apply] reject with
    a [TypeError]; the [about] command is not registered. *)
Theorem unregistered_name_rejects c W sched config (i : nat) (x : string) :
  config_scrapers config !! i = Some x ->
  x ∉ scraperList ->
  i ∈ sched ->
  (exists msg,
     outcome (apply c W sched config) = Rejected (VError "TypeError" msg)) /\
  registrations (trace (apply c W sched config)) = [].
Proof.
  intros Hi Hx Hin.
  assert (exists msg, outcome (aggregate (apply_sctx c) W sched config) =
                      Rejected (VError "TypeError" msg)) as [msg Hagg].
  { rewrite aggregate_outcome. cbv zeta.
    set (ps := snd <$> imap (fun i x => scrape_one (apply_sctx c) (W i) x)
                         (config_scrapers config)).
    destruct (scrape_one_unregistered (apply_sctx c) (W i) x Hx) as [e He].
    destruct (Promise_all_reaches_rejection ps sched i e) as [e' Hall];
      [|done|].
    { unfold ps. rewrite list_lookup_fmap, list_lookup_imap, Hi. simpl.
      by rewrite <- He. }
    rewrite Hall.
    apply Promise_all_Rejected_inv, list_elem_of_lookup in Hall as [j Hj].
    unfold ps in Hj. rewrite list_lookup_fmap, list_lookup_imap in Hj.
    destruct (config_scrapers config !! j) as [y|]; [|done].
    injection Hj as Hj.
    destruct (scrape_one_Rejected_inv _ _ _ _ Hj) as [msg ->]. eauto. }
  rewrite apply_outcome, registrations_apply, Hagg. eauto.
Qed.

Lemma unregistered_name_rejects_witness :
  (exists msg,
     outcome (apply HostContext worlds_tagged [0; 1] unregistered_config) =
     Rejected (VError "TypeError" msg)) /\
  registrations
    (trace (apply HostContext worlds_tagged [0; 1] unregistered_config)) = [].
Proof.
  apply (unregistered_name_rejects HostContext worlds_tagged [0; 1]
           unregistered_config 1 "Version"); [reflexivity| |].
  - intros Hin. apply scraperList_elem in Hin as [Hin|[Hin|Hin]];
      discriminate Hin.
  - apply (list_elem_of_lookup_2 _ 1). reflexivity.
Defined.



Lemma Object_assign_lookup_inv (objs : list JsObject) (k : string) (v : jsval) :
  Object_assign ∅ (Some <$> objs) !! k = Some v ->
  exists i o, objs !! i = Some o /\ o !! k = Some v.
Proof.
  induction objs as [|o objs IH] using rev_ind; [done|].
  rewrite Object_assign_snoc, lookup_union_Some_raw.
  intros [Ho|[_ Hrest]].
  - exists (length objs), o. split; [by apply list_lookup_middle | done].
  - destruct (IH Hrest) as (i & o' & Hi & Hk).
    exists i, o'. split; [by apply lookup_app_l_Some | done].
Qed.

(** X13: the record holds nothing but scraper results: every entry of
    the aggregated record is the value that the scraper of some configured
    position returned, filed under the key derived from that name. *)
Theorem aggregate_values_from_scrapers sctx W sched config
    (r : JsObject) (k : string) (v : jsval) :
  valid_config config ->
  outcome (aggregate sctx W sched config) = Fulfilled r ->
  r !! k = Some v ->
  exists i x,
    config_scrapers config !! i = Some x /\
    derive_key x = Normal k /\
    outcome (call_scraper x sctx (W i)) = Fulfilled v.
Proof.
  intros Hvalid (objs & -> & Hlen & Hobjs)%aggregate_Fulfilled_inv Hk;
    [|done].
  apply Object_assign_lookup_inv in Hk as (i & o & Hi & Hk).
  destruct (lookup_lt_is_Some_2 (config_scrapers config) i) as [x Hx].
  { rewrite <- Hlen. by eapply lookup_lt_Some. }
  destruct (Hobjs i x Hx) as (u & Hu & Ho).
  rewrite Hi in Ho. injection Ho as ->.
  apply lookup_singleton_Some in Hk as [<- <-].
  exists i, x. split; [done|]. split; [|done].
  apply derive_key_valid. unfold valid_config in Hvalid.
  rewrite Forall_forall in Hvalid. apply Hvalid.
  by eapply list_elem_of_lookup_2.
Qed.

Lemma aggregate_values_from_scrapers_witness :
  exists i x,
    config_scrapers default_config !! i = Some x /\
    derive_key x = Normal "gitVersion" /\
    outcome (call_scraper x sample_sctx (worlds_tagged i)) =
    Fulfilled (VStr "v1.2.0-1-g0a1b2c3 (build 1)").
Proof.
  apply (aggregate_values_from_scrapers sample_sctx worlds_tagged [2; 0; 1]
           default_config tagged_record "gitVersion" _ default_config_valid).
  - vm_compute. reflexivity.
  - vm_compute. reflexivity.
Defined.
